(** * The AND/OR task planner of [src/orchestration/symbolic/planner.py]

    A shallow embedding of the planner and the proofs of its specification.

    Python objects live in a store indexed by locations: two task nodes are
    the same member of a Python [set] exactly when they are the same object,
    so sets of nodes are sets of locations.  Costs and risks, Python numbers,
    are exact rationals: comparing them and taking their [max] is what
    Python does, and adding them is what Python does on whole numbers of
    moderate size; on other floats Python rounds a sum and the sum here is
    exact.  Resource amounts are integers. *)

From Stdlib Require Import QArith Qcanon.
From stdpp Require Import base gmap sets list strings pretty numbers.

Set Warnings "-clear-no-such-hyp".

(** ** Exceptions and outcomes *)

(** [PlanException] and its two subclasses, and the built-in exceptions the
    code can run into.  An [except ResourceConflictError] clause catches the
    one constructor only. *)
Inductive exn : Type :=
  | PlanException (msg : string)
  | CircularDependencyError (msg : string)
  | ResourceConflictError (msg : string)
  | AttributeError (msg : string)
  | KeyError (key : string)
  | IndexError (msg : string)
  | TypeError (msg : string).

(** What a call does: it returns, it raises, or the model says nothing
    ([Undefined]: a loop ran out of fuel, or a reference names no object of
    the store, which no Python run can produce). *)
Inductive outcome (A : Type) : Type :=
  | Return (a : A)
  | Raise (e : exn)
  | Undefined.
Arguments Return {A} a.
Arguments Raise {A} e.
Arguments Undefined {A}.

#[global] Instance outcome_ret : MRet outcome := λ A a, Return a.
#[global] Instance outcome_bind : MBind outcome := λ A B k m,
  match m with
  | Return a => k a
  | Raise e => Raise e
  | Undefined => Undefined
  end.

(** [for x in l: st = body(st, x)], leaving at the first exception. *)
Fixpoint for_each {A S : Type} (body : S → A → outcome S) (l : list A) (st : S)
  : outcome S :=
  match l with
  | [] => Return st
  | x :: l' => st' ← body st x; for_each body l' st'
  end.

(** ** Task nodes *)

Abbreviation loc := positive.

Inductive NodeClass : Type := ANDNode | ORNode | AtomicNode.

Definition class_name (c : NodeClass) : string :=
  match c with
  | ANDNode => "ANDNode"
  | ORNode => "ORNode"
  | AtomicNode => "AtomicNode"
  end.

(** The attributes [TaskNode.__init__] sets.  [resources] is a dict: its
    items are kept in insertion order, the order [items()] yields them. *)
Record TaskNode : Type := mkTaskNode {
  cls : NodeClass;
  task_id : string;
  preconditions : list loc;
  resources : list (string * Z);
  cost : Qc;
  risk : Qc;
  _state : string;
  _children : list loc
}.

Abbreviation store := (gmap loc TaskNode).

Definition is_atomic (c : NodeClass) : bool :=
  match c with
  | AtomicNode => true
  | ANDNode | ORNode => false
  end.

(** [TaskNode.__init__]: a new object, pending and without children. *)
Definition new_node (c : NodeClass) (name : string) (pre : list loc)
    (res : list (string * Z)) (cst rsk : Qc) (σ : store) : loc * store :=
  let l := fresh (dom σ) in
  (l, <[l := mkTaskNode c name pre res cst rsk "PENDING" []]> σ).

Definition preconditions_of (σ : store) (l : loc) : list loc :=
  from_option preconditions [] (σ !! l).

Definition children_of (σ : store) (l : loc) : list loc :=
  from_option _children [] (σ !! l).

Definition id_of (σ : store) (l : loc) : string :=
  from_option task_id "" (σ !! l).

(** Every reference held by an object of the store names an object of the
    store: true of every Python heap. *)
Definition closed (σ : store) : Prop :=
  map_Forall (λ _ n, Forall (λ p, p ∈ dom σ) (preconditions n)
                     ∧ Forall (λ c, c ∈ dom σ) (_children n)) σ.

(** ** Ancestors *)

(** The body of [for parent in current.preconditions].  A Python list used
    as a stack is kept with its top first: [append] is a cons and [pop]
    takes the head. *)
Definition visit_parent (st : gset loc * list loc) (parent : loc)
  : gset loc * list loc :=
  if decide (parent ∈ st.1) then st else ({[parent]} ∪ st.1, parent :: st.2).

Fixpoint ancestors_loop (fuel : nat) (σ : store) (ancestors : gset loc)
    (stack : list loc) : outcome (gset loc) :=
  match stack with
  | [] => Return ancestors
  | current :: rest =>
      match fuel with
      | O => Undefined
      | S fuel' =>
          let st := foldl visit_parent (ancestors, rest) (preconditions_of σ current) in
          ancestors_loop fuel' σ st.1 st.2
      end
  end.

(** Each object is pushed at most once after [self], so one more iteration
    than there are objects is enough. *)
Definition get_ancestors (σ : store) (self : loc) : outcome (gset loc) :=
  ancestors_loop (S (size σ)) σ ∅ [self].

(** [add_child] mutates [self]: it takes the store and gives it back. *)
Definition add_child (self node : loc) (σ : store) : outcome unit * store :=
  match get_ancestors σ self with
  | Return ancestors =>
      if decide (node ∈ ancestors) then
        (Raise (CircularDependencyError
                  ("Circular reference detected adding " +:+ id_of σ node
                   +:+ " to " +:+ id_of σ self)), σ)
      else
        match σ !! self with
        | Some n =>
            (Return (),
             <[self := mkTaskNode (cls n) (task_id n) (preconditions n) (resources n)
                         (cost n) (risk n) (_state n) (_children n ++ [node])]> σ)
        | None => (Undefined, σ)
        end
  | Raise e => (Raise e, σ)
  | Undefined => (Undefined, σ)
  end.

(** ** The whole-tree check *)

(** [for child in node._children: stack.append((child, new_path))]: the last
    child ends on top. *)
Definition push_children (children : list loc) (new_path : gset loc)
    (stack : list (loc * gset loc)) : list (loc * gset loc) :=
  foldl (λ s child, (child, new_path) :: s) stack children.

Fixpoint validate_dag_loop (fuel : nat) (σ : store) (visited : gset loc)
    (stack : list (loc * gset loc)) : outcome unit :=
  match stack with
  | [] => Return ()
  | (node, path) :: rest =>
      match fuel with
      | O => Undefined
      | S fuel' =>
          if decide (node ∈ path) then
            Raise (CircularDependencyError ("Cycle detected at " +:+ id_of σ node))
          else if decide (node ∈ visited) then
            validate_dag_loop fuel' σ visited rest
          else
            validate_dag_loop fuel' σ ({[node]} ∪ visited)
              (push_children (children_of σ node) ({[node]} ∪ path) rest)
      end
  end.

(** An entry is pushed for [self] and for each child of a node visited for
    the first time. *)
Definition dag_fuel (σ : store) : nat :=
  S (map_fold (λ _ n acc, (length (_children n) + acc)%nat) 0%nat σ).

Definition validate_dag (σ : store) (self : loc) : outcome unit :=
  validate_dag_loop (dag_fuel σ) σ ∅ [(self, ∅)].

(** ** Scoring one option *)

Record PlanningResult : Type := mkPlanningResult {
  sequence : list loc;
  resource_usage : gmap string Z;
  plan_cost : Qc;
  risk_factor : Qc
}.

(** Python's [max(a, b)]: [b] when it is greater, [a] otherwise. *)
Definition py_max (a b : Qc) : Qc := if decide (a < b)%Qc then b else a.

(** The body of [for res, amount in node.resources.items()].  The check reads
    the pool with [get(res, 0)]; the message reads it with [[res]]. *)
Definition require (resource_pool required_resources : gmap string Z)
    (item : string * Z) : outcome (gmap string Z) :=
  let needed := (default 0 (required_resources !! item.1) + item.2)%Z in
  if decide (default 0 (resource_pool !! item.1) < needed)%Z then
    match resource_pool !! item.1 with
    | Some available =>
        Raise (ResourceConflictError
                 ("Insufficient " +:+ item.1 +:+ ": " +:+ pretty needed
                  +:+ "/" +:+ pretty available))
    | None => Raise (KeyError item.1)
    end
  else Return (<[item.1 := needed]> required_resources).

(** The running values of [_evaluate_option]. *)
Record tally : Type := mkTally {
  required_resources : gmap string Z;
  total_cost : Qc;
  total_risk : Qc
}.

(** The body of [for node in nodes]. *)
Definition evaluate_node (resource_pool : gmap string Z) (σ : store)
    (acc : tally) (node : loc) : outcome tally :=
  match σ !! node with
  | None => Undefined
  | Some n =>
      if decide (_state n = "PENDING") then
        req ← for_each (require resource_pool) (resources n) (required_resources acc);
        Return (mkTally req (total_cost acc + cost n)%Qc (py_max (total_risk acc) (risk n)))
      else Return acc
  end.

Definition _evaluate_option (resource_pool : gmap string Z) (σ : store)
    (nodes : list loc) : outcome PlanningResult :=
  acc ← for_each (evaluate_node resource_pool σ) nodes (mkTally ∅ 0%Qc 0%Qc);
  Return (mkPlanningResult nodes (required_resources acc) (total_cost acc) (total_risk acc)).

(** ** The priority queue: [heapq] on a Python list of [(cost, node)] *)

Abbreviation entry := (Qc * loc)%type.

(** [a < b] on tuples: the costs decide unless they are equal; then the nodes
    are compared, and [TaskNode] defines no ordering. *)
Definition tuple_lt (σ : store) (a b : entry) : outcome bool :=
  if decide (a.1 = b.1) then
    if decide (a.2 = b.2) then Return false
    else Raise (TypeError
                  ("'<' not supported between instances of '"
                   +:+ from_option (class_name ∘ cls) "" (σ !! a.2) +:+ "' and '"
                   +:+ from_option (class_name ∘ cls) "" (σ !! b.2) +:+ "'"))
  else Return (bool_decide (a.1 < b.1)%Qc).

Fixpoint _siftdown_loop (fuel : nat) (σ : store) (heap : list entry)
    (newitem : entry) (startpos pos : nat) : outcome (list entry) :=
  if decide (startpos < pos)%nat then
    match fuel with
    | O => Undefined
    | S fuel' =>
        let parentpos := Nat.div2 (pos - 1) in
        match heap !! parentpos with
        | None => Undefined
        | Some parent =>
            lt ← tuple_lt σ newitem parent;
            if lt : bool then
              _siftdown_loop fuel' σ (<[pos := parent]> heap) newitem startpos parentpos
            else Return (<[pos := newitem]> heap)
        end
    end
  else Return (<[pos := newitem]> heap).

Definition _siftdown (σ : store) (heap : list entry) (startpos pos : nat)
  : outcome (list entry) :=
  match heap !! pos with
  | None => Undefined
  | Some newitem => _siftdown_loop (S pos) σ heap newitem startpos pos
  end.

Fixpoint _siftup_loop (fuel : nat) (σ : store) (heap : list entry)
    (pos childpos : nat) : outcome (list entry * nat) :=
  if decide (childpos < length heap)%nat then
    match fuel with
    | O => Undefined
    | S fuel' =>
        let rightpos := S childpos in
        childpos' ←
          (if decide (rightpos < length heap)%nat then
             match heap !! childpos, heap !! rightpos with
             | Some l, Some r =>
                 lt ← tuple_lt σ l r;
                 Return (if lt : bool then childpos else rightpos)
             | _, _ => Undefined
             end
           else Return childpos);
        match heap !! childpos' with
        | None => Undefined
        | Some child =>
            _siftup_loop fuel' σ (<[pos := child]> heap) childpos' (2 * childpos' + 1)
        end
    end
  else Return (heap, pos).

Definition _siftup (σ : store) (heap : list entry) (pos : nat)
  : outcome (list entry) :=
  match heap !! pos with
  | None => Undefined
  | Some newitem =>
      '(heap', pos') ← _siftup_loop (length heap) σ heap pos (2 * pos + 1);
      _siftdown σ (<[pos' := newitem]> heap') pos pos'
  end.

Definition heappush (σ : store) (heap : list entry) (item : entry)
  : outcome (list entry) :=
  _siftdown σ (heap ++ [item]) 0 (length heap).

Definition heappop (σ : store) (heap : list entry) : outcome (entry * list entry) :=
  match list.last heap with
  | None => Raise (IndexError "pop from empty list")
  | Some lastelt =>
      match removelast heap with
      | [] => Return (lastelt, [])
      | returnitem :: rest =>
          heap' ← _siftup σ (lastelt :: rest) 0;
          Return (returnitem, heap')
      end
  end.

(** ** Decomposition and search *)

Record PlanningGraph : Type := mkPlanningGraph {
  root : loc;
  resource_pool : gmap string Z;
  risk_threshold : Qc;
  _cache : gmap string PlanningResult
}.

(** [PlanningGraph.__init__]: the pool is copied, the cache starts empty. *)
Definition PlanningGraph_init (root : loc) (resource_pool : gmap string Z)
    (risk_threshold : Qc) : PlanningGraph :=
  mkPlanningGraph root resource_pool risk_threshold ∅.

Definition default_risk_threshold : Qc := Q2Qc (7 # 10).

(** What the search keeps between iterations. *)
Record search_state : Type := mkSearchState {
  heap : list entry;
  best_plan : option PlanningResult
}.

(** A method [validate_resources(self, available_resources)] that only
    inspects the node and the pool it is given: it returns or raises, and
    changes neither.  A method that writes to the pool or to a node is not
    of this type. *)
Definition method : Type := store → loc → gmap string Z → outcome unit.

(** [planner.py] binds no attribute [validate_resources], neither in
    [TaskNode] nor in a subclass nor in [__init__]: looking it up on a task
    node finds nothing. *)
Definition planner_py : option method := None.

Section planner.
(** What the lookup of [validate_resources] on a task node finds: nothing,
    as in the source ([planner_py]), or a method that only inspects its
    arguments. *)
Variable validate_resources : option method.

Definition call_validate_resources (σ : store) (child : loc)
    (available_resources : gmap string Z) : outcome unit :=
  match σ !! child with
  | None => Undefined
  | Some n =>
      match validate_resources with
      | Some m => m σ child available_resources
      | None =>
          Raise (AttributeError
                   ("'" +:+ class_name (cls n)
                    +:+ "' object has no attribute 'validate_resources'"))
      end
  end.

(** [try: child.validate_resources(...) ... except ResourceConflictError:
    continue]: whether the statements after the call run. *)
Definition passes (σ : store) (available_resources : gmap string Z)
    (child : loc) : outcome bool :=
  match call_validate_resources σ child available_resources with
  | Return _ => Return true
  | Raise (ResourceConflictError _) => Return false
  | Raise e => Raise e
  | Undefined => Undefined
  end.

Definition ANDNode_decompose (σ : store) (self : loc)
    (available_resources : gmap string Z) : outcome (list (list loc)) :=
  options ←
    for_each (λ options child,
                ok ← passes σ available_resources child;
                Return (if ok : bool then options ++ [child] else options))
             (children_of σ self) [];
  Return (match options with [] => [] | _ => [options] end).

Definition ORNode_decompose (σ : store) (self : loc)
    (available_resources : gmap string Z) : outcome (list (list loc)) :=
  for_each (λ alternatives child,
              ok ← passes σ available_resources child;
              Return (if ok : bool then alternatives ++ [[child]] else alternatives))
           (children_of σ self) [].

Definition decompose (σ : store) (self : loc)
    (available_resources : gmap string Z) : outcome (list (list loc)) :=
  match σ !! self with
  | None => Undefined
  | Some n =>
      match cls n with
      | ANDNode => ANDNode_decompose σ self available_resources
      | ORNode => ORNode_decompose σ self available_resources
      | AtomicNode =>
          Raise (AttributeError "'AtomicNode' object has no attribute 'decompose'")
      end
  end.

(** [not best_plan or total_cost < best_plan.cost]: a [PlanningResult] is
    always true. *)
Definition improves (best_plan : option PlanningResult) (total_cost : Qc) : bool :=
  match best_plan with
  | None => true
  | Some best => bool_decide (total_cost < plan_cost best)%Qc
  end.

(** The body of [for option in decompositions]. *)
Definition score_option (g : PlanningGraph) (σ : store) (current_cost : Qc)
    (st : search_state) (option : list loc) : outcome search_state :=
  match _evaluate_option (resource_pool g) σ option with
  | Raise (ResourceConflictError _) => Return st
  | Raise e => Raise e
  | Undefined => Undefined
  | Return plan =>
      if decide (risk_threshold g < risk_factor plan)%Qc then Return st
      else
        let total_cost := (current_cost + plan_cost plan)%Qc in
        if improves (best_plan st) total_cost then
          let best :=
            mkPlanningResult (sequence plan) (resource_usage plan) total_cost
              (risk_factor plan) in
          match list.last option with
          | None => Raise (IndexError "list index out of range")
          | Some node =>
              heap' ← heappush σ (heap st) (total_cost, node);
              Return (mkSearchState heap' (Some best))
          end
        else Return st
  end.

(** One turn of [while heap], for a heap that is not empty. *)
Definition search_step (g : PlanningGraph) (σ : store) (st : search_state)
  : outcome search_state :=
  '((current_cost, current_node), heap') ← heappop σ (heap st);
  match σ !! current_node with
  | None => Undefined
  | Some n =>
      if is_atomic (cls n) then Return (mkSearchState heap' (best_plan st))
      else
        decompositions ← decompose σ current_node (resource_pool g);
        for_each (score_option g σ current_cost) decompositions
          (mkSearchState heap' (best_plan st))
  end.

Fixpoint search_loop (fuel : nat) (g : PlanningGraph) (σ : store)
    (st : search_state) : outcome search_state :=
  match heap st with
  | [] => Return st
  | _ :: _ =>
      match fuel with
      | O => Undefined
      | S fuel' => st' ← search_step g σ st; search_loop fuel' g σ st'
      end
  end.

Definition _ao_star_search (fuel : nat) (g : PlanningGraph) (σ : store)
  : outcome PlanningResult :=
  heap0 ← heappush σ [] (0%Qc, root g);
  st ← search_loop fuel g σ (mkSearchState heap0 None);
  match best_plan st with
  | None => Raise (PlanException "No valid plan found within constraints")
  | Some best => Return best
  end.

(** [except CircularDependencyError] logs and raises again. *)
Definition generate_plan (fuel : nat) (g : PlanningGraph) (σ : store)
  : outcome PlanningResult :=
  _ ← validate_dag σ (root g);
  _ao_star_search fuel g σ.

(** A planning call as the caller sees it: the outcome and the store it
    leaves.  Nothing in the call assigns to an attribute of a task node. *)
Definition plan (fuel : nat) (root : loc) (pool : gmap string Z)
    (risk_threshold : Qc) (σ : store) : outcome PlanningResult * store :=
  (generate_plan fuel (PlanningGraph_init root pool risk_threshold) σ, σ).
End planner.

(** ** The mission of the example at the end of [planner.py] *)

Record mission_tree : Type := mkMissionTree {
  mission : loc;
  acquire_data : loc;
  sensor : loc;
  api : loc;
  process : loc;
  clean : loc;
  transform : loc;
  objects : store
}.

(** The calls of the example, in its order; the names and numbers are those
    of scenario A. *)
Definition scenario_A : mission_tree :=
  let '(mission, σ) := new_node ANDNode "Mission" [] [("cpu", 2%Z)] 0%Qc 0%Qc ∅ in
  let '(acquire_data, σ) :=
    new_node ORNode "AcquireData" [] [("memory", 4096%Z)] 0%Qc 0%Qc σ in
  let σ := (add_child mission acquire_data σ).2 in
  let '(sensor, σ) :=
    new_node AtomicNode "Sensor" [] [("cpu", 1%Z); ("memory", 2048%Z)]
      (Q2Qc 50) (Q2Qc (2 # 10)) σ in
  let '(api, σ) :=
    new_node AtomicNode "API" [] [("cpu", 2%Z); ("memory", 1024%Z)]
      (Q2Qc 30) (Q2Qc (4 # 10)) σ in
  let σ := (add_child acquire_data sensor σ).2 in
  let σ := (add_child acquire_data api σ).2 in
  let '(process, σ) :=
    new_node ANDNode "ProcessData" [] [("cpu", 4%Z); ("gpu", 1%Z)] 0%Qc 0%Qc σ in
  let σ := (add_child mission process σ).2 in
  let '(clean, σ) :=
    new_node AtomicNode "Clean" [] [("memory", 512%Z)] (Q2Qc 10) 0%Qc σ in
  let '(transform, σ) :=
    new_node AtomicNode "Transform" [] [("cpu", 2%Z)] (Q2Qc 20) 0%Qc σ in
  let σ := (add_child process clean σ).2 in
  let σ := (add_child process transform σ).2 in
  mkMissionTree mission acquire_data sensor api process clean transform σ.

Definition pool_A : gmap string Z :=
  <["cpu" := 8%Z]> (<["memory" := 16384%Z]> (<["gpu" := 1%Z]> ∅)).

(** A [validate_resources] that accepts every child: one way to complete the
    source, used to run the code past [decompose]. *)
Definition accept_all : option method := Some (λ _ _ _, Return ()).

(** ** Ancestry as a relation *)

(** [y] is one of the preconditions of [x]. *)
Definition precondition (σ : store) (x y : loc) : Prop :=
  y ∈ preconditions_of σ x.

(** [a] is reached from [self] by one or more steps along preconditions. *)
Definition ancestor (σ : store) (self a : loc) : Prop :=
  tc (precondition σ) self a.

(** The exception of a call to the method the source does not define. *)
Definition no_validate_resources (c : NodeClass) : exn :=
  AttributeError ("'" +:+ class_name c +:+ "' object has no attribute 'validate_resources'").

(** ** Small stores used as instances *)

(** A node [b], and a node [a] constructed with [b] as its precondition. *)
Definition with_precondition : loc * loc * store :=
  let '(b, σ) := new_node AtomicNode "b" [] [] 0%Qc 0%Qc ∅ in
  let '(a, σ) := new_node ANDNode "a" [b] [] 0%Qc 0%Qc σ in
  (a, b, σ).

(** Two fresh nodes, neither with a precondition. *)
Definition two_fresh_nodes : loc * loc * store :=
  let '(a, σ) := new_node ANDNode "a" [] [] 0%Qc 0%Qc ∅ in
  let '(b, σ) := new_node ANDNode "b" [] [] 0%Qc 0%Qc σ in
  (a, b, σ).

(** ** What an option asks of the pool *)

(** The objects of an option whose [state] is ["PENDING"], in its order. *)
Definition pending_nodes (σ : store) (nodes : list loc) : list TaskNode :=
  filter (λ n, _state n = "PENDING") (omap (λ l, σ !! l) nodes).

(** Their resource items, in the order the two loops meet them. *)
Definition requests (ns : list TaskNode) : list (string * Z) :=
  ns ≫= resources.

(** The sum of the amounts asked of one resource. *)
Fixpoint demand (res : string) (items : list (string * Z)) : Z :=
  match items with
  | [] => 0
  | item :: items' =>
      if decide (item.1 = res) then (item.2 + demand res items')%Z
      else demand res items'
  end.

(** The capacity the check compares with: [resource_pool.get(res, 0)]. *)
Definition capacity (resource_pool : gmap string Z) (res : string) : Z :=
  default 0%Z (resource_pool !! res).

(** No running sum exceeds the capacity of its resource. *)
Definition within (resource_pool : gmap string Z) (items : list (string * Z)) : Prop :=
  ∀ pre res amount post,
    items = pre ++ (res, amount) :: post →
    (demand res pre + amount ≤ capacity resource_pool res)%Z.

(** No running sum of a resource that the pool names exceeds its capacity;
    of the other resources nothing is said. *)
Definition within_named (resource_pool : gmap string Z) (items : list (string * Z))
  : Prop :=
  ∀ pre res amount post available,
    items = pre ++ (res, amount) :: post →
    resource_pool !! res = Some available →
    (demand res pre + amount ≤ available)%Z.

Definition sum_cost (ns : list TaskNode) : Qc :=
  foldr (λ n acc, (cost n + acc)%Qc) 0%Qc ns.

(** [r] is the greatest of the risks of [ns] and of the [0] the code starts
    from: it is below none of them, and it is one of them. *)
Definition greatest_risk (ns : list TaskNode) (r : Qc) : Prop :=
  (0 ≤ r)%Qc
  ∧ (∀ n, n ∈ ns → (risk n ≤ r)%Qc)
  ∧ (r = 0%Qc ∨ ∃ n, n ∈ ns ∧ risk n = r).

(** The magnitudes of the costs of [ns], added up (numerators: the costs
    are in lowest terms). *)
Definition magnitude (ns : list TaskNode) : Z :=
  foldr (λ n acc, (Z.abs (Qnum (cost n)) + acc)%Z) 0%Z ns.

(** The costs of [ns] are whole numbers whose magnitudes add up to [2^53] at
    most: numbers that Python adds without rounding, whether they are held
    as [int] or as [float]. *)
Definition whole_costs (ns : list TaskNode) : Prop :=
  Forall (λ n, Qden (cost n) = 1%positive) ns ∧ (magnitude ns ≤ 2 ^ 53)%Z.

Definition insufficient (res : string) (needed available : Z) : exn :=
  ResourceConflictError
    ("Insufficient " +:+ res +:+ ": " +:+ pretty needed +:+ "/" +:+ pretty available).

(** A node that asks for more cpu than a pool of 8 has, and then for a
    resource the pool does not name. *)
Definition train : loc * store :=
  new_node AtomicNode "Train" [] [("cpu", 100%Z); ("tpu", 1%Z)] 0%Qc 0%Qc ∅.

Definition cpu_only : gmap string Z := <["cpu" := 8%Z]> ∅.

(** A node that gives back one unit of a resource the pool does not name,
    and a node that asks for one. *)
Definition refund : loc * loc * store :=
  let '(a, σ) := new_node AtomicNode "Release" [] [("tpu", (-1)%Z)] 0%Qc 0%Qc ∅ in
  let '(b, σ) := new_node AtomicNode "Acquire" [] [("tpu", 1%Z)] 0%Qc 0%Qc σ in
  (a, b, σ).

(** ** What the search keeps true of its best plan *)

(** The best plan, when there is one, has a risk factor not above the
    threshold. *)
Definition within_threshold (g : PlanningGraph) (st : search_state) : Prop :=
  ∀ b, best_plan st = Some b → (risk_factor b ≤ risk_threshold g)%Qc.

(** From one state of the search to a later one, a best plan stays and its
    cost does not grow. *)
Definition improved (st st' : search_state) : Prop :=
  ∀ b, best_plan st = Some b →
       ∃ b', best_plan st' = Some b' ∧ (plan_cost b' ≤ plan_cost b)%Qc.

(** The exceptions an [except ResourceConflictError] clause lets through. *)
Definition not_conflict (e : exn) : Prop :=
  match e with
  | ResourceConflictError _ => False
  | _ => True
  end.

(** The plan the completed search returns on scenario A. *)
Definition plan_A : PlanningResult :=
  match generate_plan accept_all 10
          (PlanningGraph_init (mission scenario_A) pool_A default_risk_threshold)
          (objects scenario_A) with
  | Return plan => plan
  | _ => mkPlanningResult [] ∅ 0%Qc 0%Qc
  end.

Definition no_valid_plan : exn :=
  PlanException "No valid plan found within constraints".

(** What [generate_plan] of the source does once [validate_dag] has
    returned, read off the root [n] alone. *)
Definition source_search (σ : store) (n : TaskNode) : exn :=
  match is_atomic (cls n), _children n with
  | false, child :: _ => no_validate_resources (from_option cls AtomicNode (σ !! child))
  | _, _ => no_valid_plan
  end.



(** A [validate_resources] that scores the node alone against the pool. *)
Definition alone : option method :=
  Some (λ σ child available_resources,
          _ ← _evaluate_option available_resources σ [child]; Return ()).

Definition scarce_memory : gmap string Z :=
  <["cpu" := 8%Z]> (<["memory" := 100%Z]> ∅).

(** ** The tree as a relation, and the walk of [validate_dag] *)

(** [y] is one of the children of [x]. *)
Definition child (σ : store) (x y : loc) : Prop :=
  y ∈ children_of σ x.

(** What the loop of [validate_dag] still has to push: the children of the
    objects it has not visited. *)
Definition unvisited_children (visited : gset loc) (objs : list (loc * TaskNode)) : nat :=
  foldr (λ o acc, if decide (o.1 ∈ visited) then acc
                  else (length (_children o.2) + acc)%nat) 0%nat objs.

(** The loop of [validate_dag], handing back the [visited] set it ends
    with. *)
Fixpoint validate_dag_visits (fuel : nat) (σ : store) (visited : gset loc)
    (stack : list (loc * gset loc)) : outcome (gset loc) :=
  match stack with
  | [] => Return visited
  | (node, path) :: rest =>
      match fuel with
      | O => Undefined
      | S fuel' =>
          if decide (node ∈ path) then
            Raise (CircularDependencyError ("Cycle detected at " +:+ id_of σ node))
          else if decide (node ∈ visited) then
            validate_dag_visits fuel' σ visited rest
          else
            validate_dag_visits fuel' σ ({[node]} ∪ visited)
              (push_children (children_of σ node) ({[node]} ∪ path) rest)
      end
  end.

(** [path] holds the nodes being walked; every other visited node has all
    its children visited and done, and lies on no cycle. *)
Definition walked (σ : store) (visited path : gset loc) : Prop :=
  path ⊆ visited
  ∧ (∀ d c, d ∈ visited → d ∉ path → child σ d c → c ∈ visited ∧ c ∉ path)
  ∧ (∀ d, d ∈ visited → d ∉ path → ¬ tc (child σ) d d).

(** Two fresh nodes, each made the child of the other. *)
Definition cyclic_pair : loc * store :=
  let '(a, b, σ) := two_fresh_nodes in
  (a, (add_child b a (add_child a b σ).2).2).

(** ** Drawing the tree *)

(** The calls [visualize] makes on the [graphviz.Digraph], in their order:
    what the graph is made of when [render] is called. *)
Inductive dot_command : Type :=
  | DotNode (name shape style fillcolor : string)
  | DotEdge (tail_name head_name : string).

(** [dot.node(node.id, shape=..., style=..., fillcolor=...)]: a rectangle
    for an [ANDNode], a diamond for every other class. *)
Definition draw_node (n : TaskNode) : dot_command :=
  DotNode (task_id n)
    (match cls n with ANDNode => "rectangle" | _ => "diamond" end)
    (if is_atomic (cls n) then "filled" else "")
    (if is_atomic (cls n) then "lightgrey" else "white").

(** The commands of one turn of the loop: the node, then an edge to each
    child. *)
Definition draw (σ : store) (n : TaskNode) : list dot_command :=
  draw_node n :: ((λ c, DotEdge (task_id n) (id_of σ c)) <$> _children n).

Fixpoint visualize_loop (fuel : nat) (σ : store) (dot : list dot_command)
    (visited : gset loc) (stack : list loc) : outcome (list dot_command) :=
  match stack with
  | [] => Return dot
  | node :: rest =>
      match fuel with
      | O => Undefined
      | S fuel' =>
          if decide (node ∈ visited) then visualize_loop fuel' σ dot visited rest
          else
            match σ !! node with
            | None => Undefined
            | Some n =>
                visualize_loop fuel' σ (dot ++ draw σ n) ({[node]} ∪ visited)
                  (foldl (λ s c, c :: s) rest (_children n))
            end
      end
  end.

(** [visualize], up to the call of [render]. *)
Definition visualize (σ : store) (g : PlanningGraph) : outcome (list dot_command) :=
  visualize_loop (dag_fuel σ) σ [] ∅ [root g].

(** What is drawn for the object at [l]. *)
Definition drawing (σ : store) (l : loc) : list dot_command :=
  from_option (draw σ) [] (σ !! l).

(** ** How far the search looks *)

(** Scoring [option] returns [scored], and its risk is not above the
    threshold. *)
Definition acceptable (g : PlanningGraph) (σ : store) (option : list loc)
    (scored : PlanningResult) : Prop :=
  _evaluate_option (resource_pool g) σ option = Return scored
  ∧ ¬ (risk_threshold g < risk_factor scored)%Qc.



(** ** Comparing heap entries *)

(** A heap operation went through without comparing two nodes, and what it
    leaves holds no two entries of the same cost. *)
Definition distinct_costs {A : Type} (heap_of : A → list entry) (r : outcome A) : Prop :=
  match r with
  | Return a => NoDup (heap_of a).*1
  | Raise _ => False
  | Undefined => True
  end.

Definition no_type_error (e : exn) : Prop :=
  match e with
  | TypeError _ => False
  | _ => True
  end.

(** The heap holds no two entries of the same cost, and none cheaper than
    the best plan; before a plan is found it holds the root at most. *)
Definition tidy (st : search_state) : Prop :=
  NoDup (heap st).*1
  ∧ match best_plan st with
    | None => length (heap st) ≤ 1
    | Some b => ∀ e, e ∈ heap st → (plan_cost b ≤ e.1)%Qc
    end.

(** The same once the entry to expand is popped: no plan yet, no entry. *)
Definition tidy_scoring (st : search_state) : Prop :=
  NoDup (heap st).*1
  ∧ match best_plan st with
    | None => heap st = []
    | Some b => ∀ e, e ∈ heap st → (plan_cost b ≤ e.1)%Qc
    end.

(** An outcome keeps [P] when it returns and raises no [TypeError]. *)
Definition keeps {A : Type} (P : A → Prop) (r : outcome A) : Prop :=
  match r with
  | Return a => P a
  | Raise e => no_type_error e
  | Undefined => True
  end.

(** [validate_resources] itself raises no [TypeError]. *)
Definition well_typed (validate_resources : option method) : Prop :=
  match validate_resources with
  | Some m => ∀ σ child pool msg, m σ child pool ≠ Raise (TypeError msg)
  | None => True
  end.

(** * Proofs *)

Lemma for_each_app {A S : Type} (body : S → A → outcome S) (l1 l2 : list A) (st : S) :
  for_each body (l1 ++ l2) st = st' ← for_each body l1 st; for_each body l2 st'.
Proof.
  revert st. induction l1 as [|x l1 IH]; intros st; simpl; [done|].
  destruct (body st x); simpl; [apply IH | done | done].
Qed.

(** ** [get_ancestors] computes the ancestors *)

Section ancestors.
Context (σ : store) (self : loc).
Hypothesis Hclosed : closed σ.

Lemma preconditions_of_dom x p : p ∈ preconditions_of σ x → p ∈ dom σ.
Proof.
  unfold preconditions_of. destruct (σ !! x) as [n|] eqn:Hx; simpl.
  - intros Hp. destruct (Hclosed x n Hx) as [Hpre _].
    rewrite list.Forall_forall in Hpre. by apply Hpre.
  - by intros ?%elem_of_nil.
Qed.

Lemma size_difference_fresh (D a : gset loc) p :
  p ∈ D → p ∉ a → S (size (D ∖ ({[p]} ∪ a))) = size (D ∖ a).
Proof.
  intros HD Ha.
  assert (D ∖ a = {[p]} ∪ D ∖ ({[p]} ∪ a)) as ->.
  { apply set_eq. intros x. destruct (decide (x = p)) as [->|]; set_solver. }
  pose proof (size_union (C:=gset loc) {[p]} (D ∖ ({[p]} ∪ a))) as Hsz.
  pose proof (size_singleton (C:=gset loc) p) as Hone.
  rewrite Hsz, Hone; [done | set_solver].
Qed.

(** One pass over the preconditions of a node: what it adds to the set,
    what it pushes, and that it pushes exactly as much as it adds. *)
Lemma foldl_visit_parent ps anc st :
  let r := foldl visit_parent (anc, st) ps in
  r.1 = anc ∪ list_to_set ps
  ∧ (∀ s, s ∈ r.2 ↔ s ∈ st ∨ (s ∈ ps ∧ s ∉ anc))
  ∧ ((∀ p, p ∈ ps → p ∈ dom σ) →
     (length r.2 + size (dom σ ∖ r.1) = length st + size (dom σ ∖ anc))%nat).
Proof.
  revert anc st. induction ps as [|p ps IH]; intros anc st; simpl.
  - split_and!; [set_solver | set_solver | done].
  - destruct (decide (p ∈ anc)) as [Hin|Hout].
    + replace (visit_parent (anc, st) p) with (anc, st)
        by (unfold visit_parent; simpl; by rewrite decide_True).
      destruct (IH anc st) as (H1 & H2 & H3). split_and!.
      * rewrite H1. set_solver.
      * intros s. rewrite H2. set_solver.
      * intros Hd. apply H3. intros q Hq. apply Hd. by right.
    + replace (visit_parent (anc, st) p) with ({[p]} ∪ anc, p :: st)
        by (unfold visit_parent; simpl; by rewrite decide_False).
      destruct (IH ({[p]} ∪ anc) (p :: st)) as (H1 & H2 & H3). split_and!.
      * rewrite H1. set_solver.
      * intros s. rewrite H2. destruct (decide (s = p)); set_solver.
      * intros Hd. rewrite H3 by (intros q Hq; apply Hd; by right).
        simpl. rewrite <- (size_difference_fresh (dom σ) anc p); [lia | | done].
        apply Hd. by left.
Qed.

(** A set that holds the preconditions of [self] and of each of its
    members holds every ancestor. *)
Lemma closed_set_has_ancestors (anc : gset loc) a :
  (∀ x, x = self ∨ x ∈ anc → ∀ p, p ∈ preconditions_of σ x → p ∈ anc) →
  ancestor σ self a → a ∈ anc.
Proof.
  intros Hcl Ha.
  cut (∀ x, x = self ∨ x ∈ anc → tc (precondition σ) x a → a ∈ anc).
  { intros Hc. by apply (Hc self); [left|]. }
  clear Ha. intros x Hx Htc. induction Htc as [x y Hxy|x y z Hxy _ IHtc].
  - by apply (Hcl x Hx).
  - apply IHtc. right. by apply (Hcl x Hx).
Qed.

Lemma ancestors_loop_spec fuel anc stack :
  (length stack + size (dom σ ∖ anc) ≤ fuel)%nat →
  (∀ a, a ∈ anc → ancestor σ self a) →
  (∀ s, s ∈ stack → rtc (precondition σ) self s) →
  (∀ x, x = self ∨ x ∈ anc →
        x ∈ stack ∨ ∀ p, p ∈ preconditions_of σ x → p ∈ anc) →
  ∃ A, ancestors_loop fuel σ anc stack = Return A
       ∧ ∀ a, a ∈ A ↔ ancestor σ self a.
Proof.
  revert anc stack. induction fuel as [|fuel IH]; intros anc stack Hm Hanc Hst Hcl.
  all: destruct stack as [|c rest]; [|simpl in Hm; try lia].
  1,2: exists anc; split; [done|]; intros a; split; [apply Hanc|];
       apply closed_set_has_ancestors; intros x Hx;
       by destruct (Hcl x Hx) as [[]%elem_of_nil|Hp].
  simpl.
  destruct (foldl_visit_parent (preconditions_of σ c) anc rest) as (H1 & H2 & H3).
  assert (rtc (precondition σ) self c) as Hc by (apply Hst; by left).
  apply IH.
  - rewrite H3 by apply preconditions_of_dom. lia.
  - intros a. rewrite H1, elem_of_union, elem_of_list_to_set.
    intros [Ha|Ha]; [by apply Hanc|].
    eapply tc_rtc_l; [exact Hc|]. by apply tc_once.
  - intros s. rewrite H2. intros [Hs|[Hs _]].
    + apply Hst. by right.
    + eapply rtc_r; [exact Hc|exact Hs].
  - intros x Hx. rewrite H2, H1.
    assert (x = self ∨ x ∈ anc ∨ (x ∈ preconditions_of σ c ∧ x ∉ anc)) as Hx'.
    { destruct Hx as [->|Hx]; [by left|]. right.
      rewrite H1, elem_of_union, elem_of_list_to_set in Hx.
      destruct (decide (x ∈ anc)); naive_solver. }
    destruct Hx' as [Hx'|[Hx'|Hx']]; [| |left; by right].
    + destruct (Hcl x (or_introl Hx')) as [[->|Hr]%elem_of_cons|Hall].
      * right. intros q Hq. set_solver.
      * left. by left.
      * right. intros q Hq. set_solver.
    + destruct (Hcl x (or_intror Hx')) as [[->|Hr]%elem_of_cons|Hall].
      * right. intros q Hq. set_solver.
      * left. by left.
      * right. intros q Hq. set_solver.
Qed.

(** [get_ancestors] returns, and what it returns is the set of ancestors. *)
Lemma get_ancestors_spec :
  ∃ A, get_ancestors σ self = Return A ∧ ∀ a, a ∈ A ↔ ancestor σ self a.
Proof.
  apply ancestors_loop_spec.
  - simpl. rewrite difference_empty_L, size_dom. lia.
  - set_solver.
  - intros s ->%list_elem_of_singleton. done.
  - intros x [->|[]%not_elem_of_empty]. left. by left.
Qed.
End ancestors.

(** ** The insertion guard *)

(** C4. [add_child(parent, child)] raises [CircularDependencyError] exactly
    when [child] is an ancestor of [parent], that is, reached from [parent]
    by walking [preconditions] transitively.  When it raises, the store, and
    with it the children of [parent], is as before; otherwise the call
    returns, [child] is appended to the children of [parent], and no other
    object changes. *)
Theorem add_child_guard (σ : store) (self node : loc) (n : TaskNode) :
  closed σ →
  σ !! self = Some n →
  ((∃ msg, (add_child self node σ).1 = Raise (CircularDependencyError msg))
     ↔ ancestor σ self node)
  ∧ (ancestor σ self node → (add_child self node σ).2 = σ)
  ∧ (¬ ancestor σ self node →
       (add_child self node σ).1 = Return ()
       ∧ children_of (add_child self node σ).2 self = _children n ++ [node]
       ∧ ∀ l, l ≠ self → (add_child self node σ).2 !! l = σ !! l).
Proof.
  intros Hclosed Hself.
  destruct (get_ancestors_spec σ self Hclosed) as (A & HA & Hiff).
  unfold add_child. rewrite HA. destruct (decide (node ∈ A)) as [Hin|Hout]; simpl.
  - split_and!.
    + split; [intros _; by apply Hiff | eauto].
    + done.
    + intros Hn. destruct Hn. by apply Hiff.
  - rewrite Hself; simpl. split_and!.
    + split; [by intros [msg Hm] | intros Ha; destruct Hout; by apply Hiff].
    + intros Ha. destruct Hout. by apply Hiff.
    + intros _. split_and!; [done | |].
      * unfold children_of. by rewrite lookup_insert_eq.
      * intros l Hl. by rewrite lookup_insert_ne.
Qed.

Lemma add_child_guard_witness :
  (∃ msg, (add_child with_precondition.1.1 with_precondition.1.2
             with_precondition.2).1 = Raise (CircularDependencyError msg))
  ↔ ancestor with_precondition.2 with_precondition.1.1 with_precondition.1.2.
Proof.
  refine (proj1 (add_child_guard with_precondition.2 with_precondition.1.1
                   with_precondition.1.2
                   (mkTaskNode ANDNode "a" [1%positive] [] 0%Qc 0%Qc "PENDING" [])
                   _ _)).
  - apply (bool_decide_unpack (closed _)). vm_compute. exact I.
  - vm_compute. reflexivity.
Defined.

(** X2. With no preconditions anywhere in the store the guard never raises:
    [add_child] does not record the edges it adds where [get_ancestors]
    looks for them. *)
Lemma add_child_without_preconditions (σ : store) (self node : loc) (n : TaskNode) :
  closed σ →
  σ !! self = Some n →
  (∀ l m, σ !! l = Some m → preconditions m = []) →
  (add_child self node σ).1 = Return ().
Proof.
  intros Hclosed Hself Hnone.
  destruct (get_ancestors_spec σ self Hclosed) as (A & HA & Hiff).
  unfold add_child. rewrite HA.
  assert (∀ x y, ¬ precondition σ x y) as Hno.
  { intros x y. unfold precondition, preconditions_of.
    destruct (σ !! x) as [m|] eqn:Hx; simpl; [rewrite (Hnone x m Hx)|];
      apply not_elem_of_nil. }
  rewrite decide_False, Hself; [done|].
  intros Hin%Hiff. destruct Hin as [x y Hxy|x y z Hxy _]; by apply Hno in Hxy.
Qed.

(** ** The insertion guard against the whole-tree check *)

(** C3. Two fresh nodes, [a.add_child(b)] then [b.add_child(a)]: both calls
    return, and [a.validate_dag()] raises [CircularDependencyError].  The
    guard of [add_child] looks along [preconditions], which [add_child]
    never extends, so it does not see the edges the tree is made of. *)
Theorem add_child_admits_cycle :
  let '(a, b, σ) := two_fresh_nodes in
  let first := add_child a b σ in
  let second := add_child b a first.2 in
  first.1 = Return ()
  ∧ second.1 = Return ()
  ∧ validate_dag second.2 a = Raise (CircularDependencyError "Cycle detected at a").
Proof. vm_compute. done. Qed.

(** ** [decompose] in the source *)

(** The first child is asked for [validate_resources], and the lookup fails. *)
Lemma decompose_planner_py (σ : store) (self child : loc) (n m : TaskNode)
    (rest : list loc) (pool : gmap string Z) :
  σ !! self = Some n →
  cls n ≠ AtomicNode →
  _children n = child :: rest →
  σ !! child = Some m →
  decompose planner_py σ self pool = Raise (no_validate_resources (cls m)).
Proof.
  intros Hself Hcls Hch Hchild. unfold decompose. rewrite Hself.
  destruct (cls n); [| |done].
  - unfold ANDNode_decompose, children_of. rewrite Hself; simpl. rewrite Hch; simpl.
    unfold passes, call_validate_resources. by rewrite Hchild.
  - unfold ORNode_decompose, children_of. rewrite Hself; simpl. rewrite Hch; simpl.
    unfold passes, call_validate_resources. by rewrite Hchild.
Qed.

Lemma heappush_empty (σ : store) (item : entry) : heappush σ [] item = Return [item].
Proof. done. Qed.

Lemma heappop_singleton (σ : store) (item : entry) :
  heappop σ [item] = Return (item, []).
Proof. done. Qed.

(** The search pops the root first; when [decompose] raises there, the
    exception leaves the search. *)
Lemma search_planner_py (σ : store) (g : PlanningGraph) (n : TaskNode) (e : exn)
    (fuel : nat) :
  σ !! root g = Some n →
  cls n ≠ AtomicNode →
  decompose planner_py σ (root g) (resource_pool g) = Raise e →
  _ao_star_search planner_py (S fuel) g σ = Raise e.
Proof.
  intros Hroot Hcls Hdec. unfold _ao_star_search. rewrite heappush_empty. simpl.
  unfold search_step. simpl heap. rewrite heappop_singleton. simpl.
  rewrite Hroot. destruct (cls n) eqn:Hc; [| |done]; simpl; by rewrite Hdec.
Qed.

(** C9. In the source, [decompose] on an AND or OR node with at least one
    child does not return: the call of [validate_resources] on the first
    child raises [AttributeError], which no handler catches, so it leaves
    [decompose], the search, and [generate_plan]. *)
Theorem decompose_never_returns (σ : store) (self : loc) (n : TaskNode)
    (pool : gmap string Z) :
  closed σ →
  σ !! self = Some n →
  cls n = ANDNode ∨ cls n = ORNode →
  _children n ≠ [] →
  ∃ c, decompose planner_py σ self pool = Raise (no_validate_resources c)
       ∧ ∀ fuel threshold,
           let g := PlanningGraph_init self pool threshold in
           _ao_star_search planner_py (S fuel) g σ = Raise (no_validate_resources c)
           ∧ (validate_dag σ self = Return () →
              generate_plan planner_py (S fuel) g σ = Raise (no_validate_resources c)).
Proof.
  intros Hclosed Hself Hcls Hch.
  destruct (_children n) as [|child rest] eqn:Hchildren; [done|].
  assert (is_Some (σ !! child)) as [m Hm].
  { apply elem_of_dom. destruct (Hclosed self n Hself) as [_ Hc].
    rewrite list.Forall_forall in Hc. apply Hc. rewrite Hchildren. by left. }
  assert (cls n ≠ AtomicNode) as Hna by (destruct Hcls as [->| ->]; done).
  exists (cls m).
  pose proof (decompose_planner_py σ self child n m rest pool Hself Hna Hchildren Hm)
    as Hdec.
  split; [done|]. intros fuel threshold g.
  assert (_ao_star_search planner_py (S fuel) g σ = Raise (no_validate_resources (cls m)))
    as Hsearch by (by apply (search_planner_py σ g n)).
  split; [done|]. intros Hdag. unfold generate_plan. simpl. by rewrite Hdag.
Qed.

Lemma decompose_never_returns_witness :
  ∃ c, decompose planner_py (objects scenario_A) (mission scenario_A) pool_A
       = Raise (no_validate_resources c)
       ∧ ∀ fuel threshold,
           let g := PlanningGraph_init (mission scenario_A) pool_A threshold in
           _ao_star_search planner_py (S fuel) g (objects scenario_A)
           = Raise (no_validate_resources c)
           ∧ (validate_dag (objects scenario_A) (mission scenario_A) = Return () →
              generate_plan planner_py (S fuel) g (objects scenario_A)
              = Raise (no_validate_resources c)).
Proof.
  refine (decompose_never_returns (objects scenario_A) (mission scenario_A)
            (mkTaskNode ANDNode "Mission" [] [("cpu", 2%Z)] 0%Qc 0%Qc "PENDING"
               [acquire_data scenario_A; process scenario_A])
            pool_A _ _ _ _).
  - apply (bool_decide_unpack (closed _)). vm_compute. exact I.
  - vm_compute. reflexivity.
  - left. reflexivity.
  - simpl. discriminate.
Defined.

(** ** Scenario A in the source *)

(** C1. On the tree, pool and ceiling of scenario A, [generate_plan] raises
    [AttributeError] at the first [decompose], that of "Mission", whose first
    child is the OR node "AcquireData"; it returns no plan. *)
Theorem scenario_A_raises (fuel : nat) :
  generate_plan planner_py (S fuel)
    (PlanningGraph_init (mission scenario_A) pool_A default_risk_threshold)
    (objects scenario_A)
  = Raise (no_validate_resources ORNode).
Proof.
  unfold generate_plan.
  replace (validate_dag _ _) with (Return ()) by (vm_compute; reflexivity).
  cbv beta iota delta [mbind outcome_bind].
  apply (search_planner_py _ _
           (mkTaskNode ANDNode "Mission" [] [("cpu", 2%Z)] 0%Qc 0%Qc "PENDING"
              [acquire_data scenario_A; process scenario_A]));
    [vm_compute; reflexivity | done | vm_compute; reflexivity].
Qed.

(** C2. "ProcessData" is an AND node whose two children, "Clean" and
    "Transform", each fit the pool of scenario A; [decompose] raises
    [AttributeError] instead of returning the one option that holds both. *)
Theorem ANDNode_decompose_raises :
  children_of (objects scenario_A) (process scenario_A)
  = [clean scenario_A; transform scenario_A]
  ∧ (∃ p, _evaluate_option pool_A (objects scenario_A) [clean scenario_A] = Return p)
  ∧ (∃ p, _evaluate_option pool_A (objects scenario_A) [transform scenario_A] = Return p)
  ∧ decompose planner_py (objects scenario_A) (process scenario_A) pool_A
    = Raise (no_validate_resources AtomicNode).
Proof.
  split_and!; [vm_compute; reflexivity | | | vm_compute; reflexivity].
  - eexists. vm_compute. reflexivity.
  - eexists. vm_compute. reflexivity.
Qed.

(** ** Scoring: the resource loop *)

Section resources.
Context (resource_pool : gmap string Z).
Local Open Scope Z_scope.

Lemma demand_app res l1 l2 :
  demand res (l1 ++ l2) = demand res l1 + demand res l2.
Proof.
  induction l1 as [|x l1 IH]; simpl; [done|].
  destruct (decide (x.1 = res)); lia.
Qed.

Lemma demand_not_requested res items : res ∉ items.*1 → demand res items = 0.
Proof.
  induction items as [|x items IH]; simpl; [done|].
  intros [Hx Hn]%not_elem_of_cons. rewrite decide_False by done. by apply IH.
Qed.

Lemma within_app_l l1 l2 : within resource_pool (l1 ++ l2) → within resource_pool l1.
Proof.
  intros Hw pre res amount post ->. apply (Hw pre res amount (post ++ l2)).
  by rewrite <- app_assoc.
Qed.

Lemma within_snoc items res amount :
  within resource_pool items →
  demand res items + amount ≤ capacity resource_pool res →
  within resource_pool (items ++ [(res, amount)]).
Proof.
  intros Hw Hle pre r a post Heq. destruct post as [|z post _] using rev_ind.
  - apply app_inj_tail in Heq as [-> [= -> ->]]. done.
  - rewrite app_comm_cons, app_assoc in Heq. apply app_inj_tail in Heq as [-> _].
    by apply (Hw pre r a post).
Qed.

(** While every running sum is within capacity the loop goes on, and the
    dict holds, for each resource met, the sum of its amounts. *)
Lemma require_run items :
  within resource_pool items →
  ∃ req, for_each (require resource_pool) items ∅ = Return req
         ∧ ∀ res, req !! res =
                  if decide (res ∈ items.*1) then Some (demand res items) else None.
Proof.
  induction items as [|[r a] items IH] using rev_ind; intros Hw.
  - exists ∅. split; [done|]. intros res. rewrite decide_False by apply not_elem_of_nil.
    apply lookup_empty.
  - destruct (IH (within_app_l _ _ Hw)) as (req & Hreq & Hlook).
    rewrite for_each_app, Hreq. simpl. unfold require; simpl.
    assert (default 0 (req !! r) = demand r items) as ->.
    { rewrite Hlook. case_decide; simpl; [done|]. symmetry. by apply demand_not_requested. }
    pose proof (Hw items r a [] eq_refl) as Hle. unfold capacity in Hle.
    rewrite decide_False by lia. eexists. split; [done|]. intros res.
    rewrite fmap_app, demand_app. simpl. destruct (decide (r = res)) as [->|Hne].
    + rewrite lookup_insert_eq, decide_True by set_solver. f_equal. lia.
    + rewrite lookup_insert_ne, Hlook by done.
      destruct (decide (res ∈ items.*1)) as [Hin|Hout].
      * rewrite decide_True by set_solver. f_equal. lia.
      * rewrite decide_False by set_solver. done.
Qed.

(** The first running sum that exceeds its capacity ends the loop:
    [ResourceConflictError] when the pool has the resource, [KeyError]
    when it does not. *)
Lemma require_first_excess pre res amount post :
  within resource_pool pre →
  capacity resource_pool res < demand res pre + amount →
  for_each (require resource_pool) (pre ++ (res, amount) :: post) ∅ =
    match resource_pool !! res with
    | Some available => Raise (insufficient res (demand res pre + amount) available)
    | None => Raise (KeyError res)
    end.
Proof.
  intros Hw Hex. destruct (require_run pre Hw) as (req & Hreq & Hlook).
  rewrite for_each_app, Hreq. simpl. unfold require; simpl.
  assert (default 0 (req !! res) = demand res pre) as ->.
  { rewrite Hlook. case_decide; simpl; [done|]. symmetry. by apply demand_not_requested. }
  unfold capacity in Hex. rewrite decide_True by lia.
  by destruct (resource_pool !! res).
Qed.

(** Either no running sum exceeds, or there is a first one that does. *)
Lemma within_or_first_excess items :
  within resource_pool items
  ∨ ∃ pre res amount post,
      items = pre ++ (res, amount) :: post
      ∧ within resource_pool pre
      ∧ capacity resource_pool res < demand res pre + amount.
Proof.
  induction items as [|[r a] items IH] using rev_ind.
  - left. intros pre res amount post Heq. by destruct pre.
  - destruct IH as [Hw|(pre & res & amount & post & -> & Hw & Hex)].
    + destruct (decide (demand r items + a ≤ capacity resource_pool r)) as [Hle|Hgt].
      * left. by apply within_snoc.
      * right. exists items, r, a, []. split_and!; [done | done | lia].
    + right. exists pre, res, amount, (post ++ [(r, a)]).
      split_and!; [by rewrite <- app_assoc | done | done].
Qed.
End resources.

(** ** Scoring: the node loop *)

Section scoring.
Context (resource_pool : gmap string Z) (σ : store).

Lemma foldl_cost (c : Qc) (ns : list TaskNode) :
  foldl (λ c n, c + cost n)%Qc c ns = (c + sum_cost ns)%Qc.
Proof.
  revert c. induction ns as [|n ns IH]; intros c; simpl; [ring|].
  rewrite IH. ring.
Qed.

Lemma py_max_l (a b : Qc) : (a ≤ py_max a b)%Qc.
Proof.
  unfold py_max. destruct (decide (a < b)%Qc); [by apply Qclt_le_weak | apply Qcle_refl].
Qed.

Lemma py_max_r (a b : Qc) : (b ≤ py_max a b)%Qc.
Proof.
  unfold py_max. destruct (decide (a < b)%Qc); [apply Qcle_refl | by apply Qcnot_lt_le].
Qed.

Lemma foldl_risk (r0 : Qc) (ns : list TaskNode) :
  let r := foldl (λ r n, py_max r (risk n)) r0 ns in
  (r0 ≤ r)%Qc
  ∧ (∀ n, n ∈ ns → (risk n ≤ r)%Qc)
  ∧ (r = r0 ∨ ∃ n, n ∈ ns ∧ risk n = r).
Proof.
  revert r0. induction ns as [|n ns IH]; intros r0; simpl.
  - split_and!; [apply Qcle_refl | by intros ? ?%elem_of_nil | by left].
  - destruct (IH (py_max r0 (risk n))) as (Hle & Hall & Hat). split_and!.
    + eapply Qcle_trans; [apply py_max_l | exact Hle].
    + intros m [->|Hm]%elem_of_cons; [|by apply Hall].
      eapply Qcle_trans; [apply py_max_r | exact Hle].
    + destruct Hat as [Heq|(m & Hm & Heq)].
      * rewrite Heq. unfold py_max. destruct (decide (r0 < risk n)%Qc); [|by left].
        right. exists n. split; [by left | done].
      * right. exists m. split; [by right | done].
Qed.

Lemma pending_nodes_cons (l : loc) (n : TaskNode) (nodes : list loc) :
  σ !! l = Some n →
  pending_nodes σ (l :: nodes) =
    if decide (_state n = "PENDING") then n :: pending_nodes σ nodes
    else pending_nodes σ nodes.
Proof.
  intros Hl. unfold pending_nodes. cbn [omap list_omap]. rewrite Hl.
  case_decide; [by rewrite filter_cons_True | by rewrite filter_cons_False].
Qed.

(** The two loops are one loop over the items of the pending nodes; cost
    and risk run over the pending nodes. *)
Lemma evaluate_nodes (nodes : list loc) (acc : tally) :
  Forall (λ l, is_Some (σ !! l)) nodes →
  for_each (evaluate_node resource_pool σ) nodes acc =
    req ← for_each (require resource_pool) (requests (pending_nodes σ nodes))
            (required_resources acc);
    Return (mkTally req
              (foldl (λ c n, c + cost n)%Qc (total_cost acc) (pending_nodes σ nodes))
              (foldl (λ r n, py_max r (risk n)) (total_risk acc)
                 (pending_nodes σ nodes))).
Proof.
  revert acc. induction nodes as [|l nodes IH]; intros acc Hin.
  - by destruct acc.
  - apply list.Forall_cons in Hin as [[n Hl] Hin]. simpl.
    rewrite (pending_nodes_cons l n nodes Hl).
    assert (evaluate_node resource_pool σ acc l =
              if decide (_state n = "PENDING") then
                req ← for_each (require resource_pool) (resources n)
                        (required_resources acc);
                Return (mkTally req (total_cost acc + cost n)%Qc
                          (py_max (total_risk acc) (risk n)))
              else Return acc) as ->
      by (unfold evaluate_node; by rewrite Hl).
    destruct (decide (_state n = "PENDING")) as [Hp|Hp]; [|by apply IH].
    unfold requests. simpl. rewrite for_each_app.
    destruct (for_each (require resource_pool) (resources n) (required_resources acc))
      as [req| |]; simpl; [|done|done].
    by rewrite IH.
Qed.

Lemma evaluate_option_unfold (nodes : list loc) :
  Forall (λ l, is_Some (σ !! l)) nodes →
  _evaluate_option resource_pool σ nodes =
    req ← for_each (require resource_pool) (requests (pending_nodes σ nodes)) ∅;
    Return (mkPlanningResult nodes req (sum_cost (pending_nodes σ nodes))
              (foldl (λ r n, py_max r (risk n)) 0%Qc (pending_nodes σ nodes))).
Proof.
  intros Hin. unfold _evaluate_option. rewrite (evaluate_nodes nodes _ Hin). simpl.
  destruct (for_each _ _ _); simpl; [|done|done].
  rewrite foldl_cost. do 2 f_equal. ring.
Qed.

(** What a call that returns, returns. *)
Lemma evaluate_option_returns (nodes : list loc) :
  Forall (λ l, is_Some (σ !! l)) nodes →
  within resource_pool (requests (pending_nodes σ nodes)) →
  ∃ plan, _evaluate_option resource_pool σ nodes = Return plan
          ∧ sequence plan = nodes
          ∧ (∀ res, resource_usage plan !! res =
                    if decide (res ∈ (requests (pending_nodes σ nodes)).*1)
                    then Some (demand res (requests (pending_nodes σ nodes)))
                    else None)
          ∧ plan_cost plan = sum_cost (pending_nodes σ nodes)
          ∧ greatest_risk (pending_nodes σ nodes) (risk_factor plan).
Proof.
  intros Hin Hw. rewrite (evaluate_option_unfold nodes Hin).
  destruct (require_run resource_pool _ Hw) as (req & -> & Hlook). simpl.
  eexists. split; [done|]. simpl. split_and!; [done | done | done |].
  destruct (foldl_risk 0%Qc (pending_nodes σ nodes)) as (Hzero & Hall & Hat).
  split_and!; [done | done |]. destruct Hat as [->|?]; [by left | by right].
Qed.

(** What a call raises, at the first running sum above its capacity. *)
Lemma evaluate_option_first_excess (nodes : list loc) pre res amount post :
  Forall (λ l, is_Some (σ !! l)) nodes →
  requests (pending_nodes σ nodes) = pre ++ (res, amount) :: post →
  within resource_pool pre →
  (capacity resource_pool res < demand res pre + amount)%Z →
  _evaluate_option resource_pool σ nodes =
    match resource_pool !! res with
    | Some available => Raise (insufficient res (demand res pre + amount) available)
    | None => Raise (KeyError res)
    end.
Proof.
  intros Hin Heq Hw Hex. rewrite (evaluate_option_unfold nodes Hin), Heq.
  rewrite (require_first_excess resource_pool pre res amount post Hw Hex).
  by destruct (resource_pool !! res).
Qed.

End scoring.

(** ** Scoring against a pool that lacks a resource *)

(** C5. "Sensor" asks for cpu 1 and memory 2048; against a pool that names
    only cpu the running sum for memory exceeds the capacity [get] gives, 0,
    and the call raises [KeyError] where [ResourceConflictError] is due: the
    message reads [resource_pool[res]]. *)
Theorem evaluate_option_key_error :
  _evaluate_option cpu_only (objects scenario_A) [sensor scenario_A]
  = Raise (KeyError "memory").
Proof. vm_compute. reflexivity. Qed.

(** "Train" is pending and asks for one unit of "tpu", which the pool does
    not name; the call raises [ResourceConflictError], for the cpu it asks
    for first. *)
Lemma evaluate_option_conflict_first :
  train.1 ∈ [train.1]
  ∧ (∃ n, train.2 !! train.1 = Some n ∧ _state n = "PENDING"
          ∧ ("tpu", 1%Z) ∈ resources n)
  ∧ cpu_only !! "tpu" = None
  ∧ _evaluate_option cpu_only train.2 [train.1] = Raise (insufficient "cpu" 100 8).
Proof.
  split_and!; [by left | | vm_compute; reflexivity | vm_compute; reflexivity].
  eexists. split_and!; [vm_compute; reflexivity | done |]. simpl. right. by left.
Qed.

(** After a negative amount a positive one need not exceed anything: when
    "Release" has asked for -1 of a resource the pool does not name, "Acquire"
    asks for 1 of it, the running sum is 0, and the call returns. *)
Lemma evaluate_option_refund_returns :
  cpu_only !! "tpu" = None
  ∧ ∃ plan, _evaluate_option cpu_only refund.2 [refund.1.1; refund.1.2] = Return plan.
Proof. split; [vm_compute; reflexivity|]. eexists. vm_compute. reflexivity. Qed.

Lemma within_within_named (resource_pool : gmap string Z) (items : list (string * Z)) :
  within resource_pool items → within_named resource_pool items.
Proof.
  intros Hw pre res amount post available Heq Hres.
  pose proof (Hw pre res amount post Heq) as Hle. unfold capacity in Hle.
  by rewrite Hres in Hle.
Qed.

(** C10, amended. When a request of a pending node takes the running sum of
    a resource the pool does not name above 0, and no request before it has
    taken the running sum of a resource the pool names above its capacity,
    the call raises [KeyError], for a resource the pool does not name, and
    not [ResourceConflictError]. *)
Theorem evaluate_option_absent_resource (resource_pool : gmap string Z) (σ : store)
    (nodes : list loc) (pre post : list (string * Z)) (res : string) (amount : Z) :
  Forall (λ l, is_Some (σ !! l)) nodes →
  requests (pending_nodes σ nodes) = pre ++ (res, amount) :: post →
  resource_pool !! res = None →
  (0 < demand res pre + amount)%Z →
  within_named resource_pool pre →
  ∃ r, resource_pool !! r = None
       ∧ _evaluate_option resource_pool σ nodes = Raise (KeyError r).
Proof.
  intros Hin Hreq Hnone Hpos Hnamed.
  destruct (within_or_first_excess resource_pool (requests (pending_nodes σ nodes)))
    as [Hw|(pre' & r & a & post' & Heq & Hw & Hex)].
  - exfalso. pose proof (Hw pre res amount post Hreq) as Hle.
    unfold capacity in Hle. rewrite Hnone in Hle. simpl in Hle. lia.
  - exists r. destruct (resource_pool !! r) as [available|] eqn:Hr.
    + exfalso. unfold capacity in Hex. rewrite Hr in Hex. simpl in Hex.
      rewrite Hreq in Heq. apply app_eq_inv in Heq as [(k & Hpre & Hk)|(k & Hpre & Hk)].
      * (* the first excess is at the request or before it *)
        destruct k as [|x k]; simpl in Hk; simplify_eq.
        pose proof (Hnamed pre' r a k available eq_refl Hr). lia.
      * (* the first excess is after the request: the request is none *)
        destruct k as [|x k]; simpl in Hk; simplify_eq.
        pose proof (Hw pre res amount k eq_refl) as Hle.
        unfold capacity in Hle. rewrite Hnone in Hle. simpl in Hle. lia.
    + split; [done|].
      rewrite (evaluate_option_first_excess resource_pool σ nodes pre' r a post'
                 Hin Heq Hw Hex).
      by rewrite Hr.
Qed.

Lemma evaluate_option_absent_resource_witness :
  ∃ r, cpu_only !! r = None
       ∧ _evaluate_option cpu_only (objects scenario_A) [sensor scenario_A]
         = Raise (KeyError r).
Proof.
  refine (evaluate_option_absent_resource cpu_only (objects scenario_A)
            [sensor scenario_A] [("cpu", 1%Z)] [] "memory" 2048%Z _ _ _ _ _).
  - apply (bool_decide_unpack (Forall _ _)). vm_compute. exact I.
  - vm_compute. reflexivity.
  - vm_compute. reflexivity.
  - vm_compute. reflexivity.
  - apply within_within_named. apply (within_snoc cpu_only [] "cpu" 1%Z).
    + intros pre res amount post Heq. by destruct pre.
    + vm_compute. discriminate.
Defined.

(** The hypotheses are the least ones: a call that raises [KeyError] has met
    such a request. *)
Lemma evaluate_option_key_error_request (resource_pool : gmap string Z) (σ : store)
    (nodes : list loc) (r : string) :
  Forall (λ l, is_Some (σ !! l)) nodes →
  _evaluate_option resource_pool σ nodes = Raise (KeyError r) →
  resource_pool !! r = None
  ∧ ∃ pre amount post,
      requests (pending_nodes σ nodes) = pre ++ (r, amount) :: post
      ∧ (0 < demand r pre + amount)%Z
      ∧ within_named resource_pool pre.
Proof.
  intros Hin Hraise.
  destruct (within_or_first_excess resource_pool (requests (pending_nodes σ nodes)))
    as [Hw|(pre & res & a & post & Heq & Hw & Hex)].
  - destruct (evaluate_option_returns resource_pool σ nodes Hin Hw) as (plan & Hplan & _).
    by rewrite Hplan in Hraise.
  - rewrite (evaluate_option_first_excess resource_pool σ nodes pre res a post
               Hin Heq Hw Hex) in Hraise.
    unfold capacity in Hex.
    destruct (resource_pool !! res) as [available|] eqn:Hres; [done|].
    injection Hraise as ->. split; [done|]. exists pre, a, post.
    split_and!; [done | simpl in Hex; lia | by apply within_within_named].
Qed.

(** ** The search loop *)

Lemma for_each_related {A S : Type} (R : S → S → Prop) (body : S → A → outcome S)
    (l : list A) (st st' : S) :
  (∀ s, R s s) →
  (∀ s1 s2 s3, R s1 s2 → R s2 s3 → R s1 s3) →
  (∀ s x s', x ∈ l → body s x = Return s' → R s s') →
  for_each body l st = Return st' → R st st'.
Proof.
  intros Hrefl Htrans. revert st. induction l as [|x l IH]; intros st Hbody Hrun.
  - simpl in Hrun. injection Hrun as <-. apply Hrefl.
  - simpl in Hrun. destruct (body st x) as [s1| |] eqn:Hx; simpl in Hrun; [|done|done].
    apply (Htrans _ s1).
    + apply (Hbody st x); [by left | done].
    + apply IH; [|done]. intros s y s' Hy. apply Hbody. by right.
Qed.

Lemma for_each_raises {A S : Type} (P : exn → Prop) (body : S → A → outcome S)
    (l : list A) (st : S) (e : exn) :
  (∀ s x e', body s x = Raise e' → P e') →
  for_each body l st = Raise e → P e.
Proof.
  intros Hbody. revert st. induction l as [|x l IH]; intros st Hrun; [done|].
  simpl in Hrun. destruct (body st x) as [s1|e1|] eqn:Hx; simpl in Hrun; [|..|done].
  - by apply (IH s1).
  - injection Hrun as <-. by apply (Hbody st x).
Qed.

(** What one scored option does to the state: nothing, or it installs the
    plan of this option with the accumulated cost. *)
Lemma score_option_returns (g : PlanningGraph) (σ : store) (current_cost : Qc)
    (st st' : search_state) (option : list loc) :
  score_option g σ current_cost st option = Return st' →
  st' = st
  ∨ ∃ plan node,
      _evaluate_option (resource_pool g) σ option = Return plan
      ∧ ¬ (risk_threshold g < risk_factor plan)%Qc
      ∧ improves (best_plan st) (current_cost + plan_cost plan)%Qc = true
      ∧ list.last option = Some node
      ∧ heappush σ (heap st) ((current_cost + plan_cost plan)%Qc, node)
        = Return (heap st')
      ∧ best_plan st'
        = Some (mkPlanningResult (sequence plan) (resource_usage plan)
                  (current_cost + plan_cost plan)%Qc (risk_factor plan)).
Proof.
  unfold score_option.
  destruct (_evaluate_option (resource_pool g) σ option) as [plan|e|] eqn:Hev;
    [| destruct e; try done; intros [= <-]; by left | done].
  destruct (decide (risk_threshold g < risk_factor plan)%Qc) as [Hr|Hr];
    [intros [= <-]; by left|].
  destruct (improves (best_plan st) (current_cost + plan_cost plan)%Qc) eqn:Himp;
    [|intros [= <-]; by left].
  destruct (list.last option) as [node|] eqn:Hlast; [|done].
  destruct (heappush σ (heap st) _) as [heap'| |] eqn:Hpush; simpl; [|done|done].
  intros [= <-]. right. exists plan, node. by split_and!.
Qed.

Lemma score_option_within_threshold (g : PlanningGraph) (σ : store) (current_cost : Qc)
    (st st' : search_state) (option : list loc) :
  score_option g σ current_cost st option = Return st' →
  within_threshold g st → within_threshold g st'.
Proof.
  intros [->|(plan & node & _ & Hr & _ & _ & _ & Hbest)]%score_option_returns Hst b;
    [apply Hst|].
  rewrite Hbest. intros [= <-]. simpl. by apply Qcnot_lt_le.
Qed.

Lemma score_option_improved (g : PlanningGraph) (σ : store) (current_cost : Qc)
    (st st' : search_state) (option : list loc) :
  score_option g σ current_cost st option = Return st' → improved st st'.
Proof.
  intros [->|(plan & node & _ & _ & Himp & _ & _ & Hbest)]%score_option_returns b Hb.
  - exists b. split; [done | apply Qcle_refl].
  - eexists. split; [exact Hbest|]. simpl. rewrite Hb in Himp. simpl in Himp.
    apply Qclt_le_weak. by apply bool_decide_eq_true_1 in Himp.
Qed.

Lemma improved_refl (st : search_state) : improved st st.
Proof. intros b Hb. exists b. split; [done | apply Qcle_refl]. Qed.

Lemma improved_trans (s1 s2 s3 : search_state) :
  improved s1 s2 → improved s2 s3 → improved s1 s3.
Proof.
  intros H12 H23 b Hb. destruct (H12 b Hb) as (b2 & Hb2 & Hle2).
  destruct (H23 b2 Hb2) as (b3 & Hb3 & Hle3). exists b3. split; [done|].
  by eapply Qcle_trans.
Qed.

Section search.
Context (validate_resources : option method) (g : PlanningGraph) (σ : store).

Lemma search_step_returns (st st' : search_state) :
  search_step validate_resources g σ st = Return st' →
  ∃ current_cost current_node heap' n,
    heappop σ (heap st) = Return ((current_cost, current_node), heap')
    ∧ σ !! current_node = Some n
    ∧ (is_atomic (cls n) = true ∧ st' = mkSearchState heap' (best_plan st)
       ∨ is_atomic (cls n) = false
         ∧ ∃ decompositions,
             decompose validate_resources σ current_node (resource_pool g)
             = Return decompositions
             ∧ for_each (score_option g σ current_cost) decompositions
                 (mkSearchState heap' (best_plan st)) = Return st').
Proof.
  unfold search_step.
  destruct (heappop σ (heap st)) as [[[c node] heap']| |] eqn:Hpop; simpl; [|done|done].
  destruct (σ !! node) as [n|] eqn:Hn; [|done].
  destruct (is_atomic (cls n)) eqn:Hat.
  - intros [= <-]. exists c, node, heap', n. split_and!; [done | done |]. by left.
  - destruct (decompose _ _ _ _) as [ds| |] eqn:Hd; simpl; [|done|done].
    intros Hrun. exists c, node, heap', n. split_and!; [done | done |].
    right. split; [done|]. by exists ds.
Qed.

Lemma search_step_within_threshold (st st' : search_state) :
  search_step validate_resources g σ st = Return st' →
  within_threshold g st → within_threshold g st'.
Proof.
  intros Hstep Hst.
  apply search_step_returns in Hstep
    as (c & node & heap' & n & _ & _ & [[_ ->]|[_ (ds & _ & Hrun)]]); [done|].
  set (R := λ s s' : search_state, within_threshold g s → within_threshold g s').
  cut (R (mkSearchState heap' (best_plan st)) st'); [intros HR; by apply HR|].
  apply (for_each_related R (score_option g σ c) ds); [| | | done].
  - by unfold R.
  - unfold R. auto.
  - intros s x s' _ Hx. exact (score_option_within_threshold g σ c s s' x Hx).
Qed.

Lemma search_step_improved (st st' : search_state) :
  search_step validate_resources g σ st = Return st' → improved st st'.
Proof.
  intros Hstep.
  apply search_step_returns in Hstep
    as (c & node & heap' & n & _ & _ & [[_ ->]|[_ (ds & _ & Hrun)]]).
  - intros b Hb. exists b. split; [done | apply Qcle_refl].
  - cut (improved (mkSearchState heap' (best_plan st)) st'); [done|].
    apply (for_each_related improved (score_option g σ c) ds);
      [apply improved_refl | apply improved_trans | | done].
    intros s x s' _ Hx. exact (score_option_improved g σ c s s' x Hx).
Qed.

Lemma search_loop_within_threshold (fuel : nat) (st st' : search_state) :
  search_loop validate_resources fuel g σ st = Return st' →
  within_threshold g st → within_threshold g st'.
Proof.
  revert st. induction fuel as [|fuel IH]; intros st; simpl.
  - destruct (heap st); [by intros [= <-] | done].
  - destruct (heap st); [by intros [= <-]|].
    destruct (search_step _ _ _ _) as [s1| |] eqn:Hstep; simpl; [|done|done].
    intros Hrun Hst. apply (IH s1 Hrun). by apply (search_step_within_threshold st s1).
Qed.

Lemma search_loop_improved (fuel : nat) (st st' : search_state) :
  search_loop validate_resources fuel g σ st = Return st' → improved st st'.
Proof.
  revert st. induction fuel as [|fuel IH]; intros st; simpl.
  - destruct (heap st); [intros [= <-]; apply improved_refl | done].
  - destruct (heap st); [intros [= <-]; apply improved_refl|].
    destruct (search_step _ _ _ _) as [s1| |] eqn:Hstep; simpl; [|done|done].
    intros Hrun. eapply improved_trans; [by apply search_step_improved | by apply IH].
Qed.

End search.

(** ** When scoring returns *)

Lemma evaluate_nodes_in_store (resource_pool : gmap string Z) (σ : store)
    (nodes : list loc) (acc acc' : tally) :
  for_each (evaluate_node resource_pool σ) nodes acc = Return acc' →
  Forall (λ l, is_Some (σ !! l)) nodes.
Proof.
  revert acc. induction nodes as [|l nodes IH]; intros acc; simpl; [by constructor|].
  destruct (evaluate_node resource_pool σ acc l) as [a| |] eqn:Hl; simpl; [|done|done].
  intros Hrun. constructor; [|by apply (IH a)].
  unfold evaluate_node in Hl. by destruct (σ !! l).
Qed.

Lemma evaluate_option_return_within (resource_pool : gmap string Z) (σ : store)
    (nodes : list loc) :
  Forall (λ l, is_Some (σ !! l)) nodes →
  (∃ plan, _evaluate_option resource_pool σ nodes = Return plan)
  ↔ within resource_pool (requests (pending_nodes σ nodes)).
Proof.
  intros Hin. split.
  - intros [plan Hplan].
    destruct (within_or_first_excess resource_pool (requests (pending_nodes σ nodes)))
      as [Hw|(pre & r & a & post & Heq & Hw & Hex)]; [done|].
    rewrite (evaluate_option_first_excess resource_pool σ nodes pre r a post
               Hin Heq Hw Hex) in Hplan.
    by destruct (resource_pool !! r).
  - intros Hw.
    destruct (evaluate_option_returns resource_pool σ nodes Hin Hw) as (plan & Hplan & _).
    by exists plan.
Qed.

(** ** The risk of the best plan *)

(** X13. A run of the search loop that returns keeps the best plan within
    the risk threshold: from a state whose best plan, if it has one, has a
    risk factor not above the threshold, the loop ends in such a state.  The
    search starts without a best plan, so the plan it ends with is within
    the threshold.  This is so whatever [validate_resources] is: the scoring
    step alone decides it. *)
Theorem best_plan_within_threshold (validate_resources : option method) (fuel : nat)
    (g : PlanningGraph) (σ : store) (st st' : search_state) :
  search_loop validate_resources fuel g σ st = Return st' →
  within_threshold g st → within_threshold g st'.
Proof. apply search_loop_within_threshold. Qed.

Lemma best_plan_within_threshold_witness :
  within_threshold
    (PlanningGraph_init (mission scenario_A) pool_A default_risk_threshold)
    (mkSearchState [] (Some plan_A)).
Proof.
  refine (best_plan_within_threshold accept_all 10
            (PlanningGraph_init (mission scenario_A) pool_A default_risk_threshold)
            (objects scenario_A)
            (mkSearchState [(0%Qc, mission scenario_A)] None)
            (mkSearchState [] (Some plan_A)) _ _).
  - vm_compute. reflexivity.
  - intros b Hb. discriminate Hb.
Defined.

(** ** No [ResourceConflictError] leaves the search *)

Lemma bind_raises {A B : Type} (m : outcome A) (k : A → outcome B) (e : exn) :
  m ≫= k = Raise e → m = Raise e ∨ ∃ a, m = Return a ∧ k a = Raise e.
Proof.
  destruct m as [a| |]; simpl; [intros Hk; right; by exists a | intros [= ->]; by left | done].
Qed.

Lemma tuple_lt_raises (σ : store) (a b : entry) (e : exn) :
  tuple_lt σ a b = Raise e → not_conflict e.
Proof.
  unfold tuple_lt. destruct (decide (a.1 = b.1)); [destruct (decide (a.2 = b.2))|];
    [done | by intros [= <-] | done].
Qed.

Lemma siftdown_loop_raises (fuel : nat) (σ : store) (h : list entry)
    (newitem : entry) (startpos pos : nat) (e : exn) :
  _siftdown_loop fuel σ h newitem startpos pos = Raise e → not_conflict e.
Proof.
  revert h pos. induction fuel as [|fuel IH]; intros h pos; simpl;
    case_decide; try done.
  destruct (h !! Nat.div2 (pos - 1)) as [parent|]; [|done].
  intros [Hlt|([] & _ & Hk)]%bind_raises.
  - by apply tuple_lt_raises in Hlt.
  - by apply IH in Hk.
  - done.
Qed.

Lemma siftdown_raises (σ : store) (h : list entry) (startpos pos : nat) (e : exn) :
  _siftdown σ h startpos pos = Raise e → not_conflict e.
Proof.
  unfold _siftdown. destruct (h !! pos); [apply siftdown_loop_raises | done].
Qed.

Lemma siftup_loop_raises (fuel : nat) (σ : store) (h : list entry)
    (pos childpos : nat) (e : exn) :
  _siftup_loop fuel σ h pos childpos = Raise e → not_conflict e.
Proof.
  revert h pos childpos. induction fuel as [|fuel IH]; intros h pos childpos; simpl;
    case_decide; try done.
  intros [Hc|(c & _ & Hk)]%bind_raises.
  - case_decide; [|done].
    destruct (h !! childpos) as [l|]; [|done]. destruct (h !! S childpos) as [r|]; [|done].
    apply bind_raises in Hc as [Hlt|(b & _ & Hb)]; [by apply tuple_lt_raises in Hlt | done].
  - destruct (h !! c); [by apply IH in Hk | done].
Qed.

Lemma siftup_raises (σ : store) (h : list entry) (pos : nat) (e : exn) :
  _siftup σ h pos = Raise e → not_conflict e.
Proof.
  unfold _siftup. destruct (h !! pos); [|done].
  intros [Hl|([h' pos'] & _ & Hd)]%bind_raises.
  - by apply siftup_loop_raises in Hl.
  - by apply siftdown_raises in Hd.
Qed.

Lemma heappush_raises (σ : store) (h : list entry) (item : entry) (e : exn) :
  heappush σ h item = Raise e → not_conflict e.
Proof. apply siftdown_raises. Qed.

Lemma heappop_raises (σ : store) (h : list entry) (e : exn) :
  heappop σ h = Raise e → not_conflict e.
Proof.
  unfold heappop. destruct (list.last h); [|by intros [= <-]].
  destruct (removelast h); [done|].
  intros [Hs|(h' & _ & Hr)]%bind_raises; [by apply siftup_raises in Hs | done].
Qed.

Lemma validate_dag_loop_raises (fuel : nat) (σ : store) (visited : gset loc)
    (stack : list (loc * gset loc)) (e : exn) :
  validate_dag_loop fuel σ visited stack = Raise e → not_conflict e.
Proof.
  revert visited stack. induction fuel as [|fuel IH]; intros visited [|[node path] stack];
    simpl; try done.
  repeat case_decide; [by intros [= <-] | apply IH | apply IH].
Qed.

Lemma score_option_raises (g : PlanningGraph) (σ : store) (current_cost : Qc)
    (st : search_state) (option : list loc) (e : exn) :
  score_option g σ current_cost st option = Raise e → not_conflict e.
Proof.
  unfold score_option.
  destruct (_evaluate_option (resource_pool g) σ option) as [plan|e'|];
    [| destruct e'; try done; by intros [= <-] | done].
  case_decide; [done|]. destruct (improves _ _); [|done].
  destruct (list.last option); [|by intros [= <-]].
  intros [Hp|(h' & _ & Hr)]%bind_raises; [by apply heappush_raises in Hp | done].
Qed.

Section no_conflict.
Context (validate_resources : option method) (g : PlanningGraph) (σ : store).

Lemma passes_raises (pool : gmap string Z) (child : loc) (e : exn) :
  passes validate_resources σ pool child = Raise e → not_conflict e.
Proof.
  unfold passes. destruct (call_validate_resources _ _ _ _) as [[]|e'|]; [done| |done].
  destruct e'; try done; by intros [= <-].
Qed.

Lemma decompose_raises (self : loc) (pool : gmap string Z) (e : exn) :
  decompose validate_resources σ self pool = Raise e → not_conflict e.
Proof.
  unfold decompose. destruct (σ !! self) as [n|]; [|done].
  destruct (cls n); [| |by intros [= <-]].
  - unfold ANDNode_decompose. intros [Hf|(o & _ & Hr)]%bind_raises; [|done].
    revert Hf. apply for_each_raises. intros s x e' [Hp|(b & _ & Hb)]%bind_raises;
      [by apply passes_raises in Hp | done].
  - unfold ORNode_decompose. apply for_each_raises.
    intros s x e' [Hp|(b & _ & Hb)]%bind_raises; [by apply passes_raises in Hp | done].
Qed.

Lemma search_step_raises (st : search_state) (e : exn) :
  search_step validate_resources g σ st = Raise e → not_conflict e.
Proof.
  unfold search_step. intros [Hp|([[c node] h'] & _ & Hk)]%bind_raises;
    [by apply heappop_raises in Hp|].
  destruct (σ !! node) as [n|]; [|done]. destruct (is_atomic (cls n)); [done|].
  apply bind_raises in Hk as [Hd|(ds & _ & Hf)]; [by apply decompose_raises in Hd|].
  revert Hf. apply for_each_raises. intros s x e'. apply score_option_raises.
Qed.

Lemma search_loop_raises (fuel : nat) (st : search_state) (e : exn) :
  search_loop validate_resources fuel g σ st = Raise e → not_conflict e.
Proof.
  revert st. induction fuel as [|fuel IH]; intros st; simpl; destruct (heap st);
    try done.
  intros [Hs|(s' & _ & Hl)]%bind_raises;
    [by apply search_step_raises in Hs | by apply IH in Hl].
Qed.

(** X14. Whatever [validate_resources] is, and whatever it raises,
    [generate_plan] does not raise [ResourceConflictError]: [decompose] and
    the scoring loop catch it, and nothing else raises it. *)
Theorem generate_plan_no_conflict (fuel : nat) (msg : string) :
  generate_plan validate_resources fuel g σ ≠ Raise (ResourceConflictError msg).
Proof.
  intros Hg. cut (not_conflict (ResourceConflictError msg)); [done|].
  revert Hg. generalize (ResourceConflictError msg). intros e.
  unfold generate_plan. intros [Hv|([] & _ & Hs)]%bind_raises;
    [by apply validate_dag_loop_raises in Hv|].
  unfold _ao_star_search in Hs.
  apply bind_raises in Hs as [Hp|(h0 & _ & Hs)]; [by apply heappush_raises in Hp|].
  apply bind_raises in Hs as [Hl|(st & _ & Hb)]; [by apply search_loop_raises in Hl|].
  destruct (best_plan st); [done | by injection Hb as <-].
Qed.
End no_conflict.

(** ** [generate_plan] in the source *)

Lemma search_loop_done (validate_resources : option method) (fuel : nat)
    (g : PlanningGraph) (σ : store) (best : option PlanningResult) :
  search_loop validate_resources fuel g σ (mkSearchState [] best)
  = Return (mkSearchState [] best).
Proof. by destruct fuel. Qed.

Lemma decompose_childless (validate_resources : option method) (σ : store)
    (self : loc) (n : TaskNode) (pool : gmap string Z) :
  σ !! self = Some n → is_atomic (cls n) = false → _children n = [] →
  decompose validate_resources σ self pool = Return [].
Proof.
  intros Hself Hat Hch. unfold decompose. rewrite Hself.
  destruct (cls n); [| |done].
  - unfold ANDNode_decompose, children_of. by rewrite Hself; simpl; rewrite Hch.
  - unfold ORNode_decompose, children_of. by rewrite Hself; simpl; rewrite Hch.
Qed.

Lemma search_source (fuel : nat) (g : PlanningGraph) (σ : store) (n : TaskNode) :
  closed σ → σ !! root g = Some n →
  _ao_star_search planner_py (S fuel) g σ = Raise (source_search σ n).
Proof.
  intros Hclosed Hroot. unfold source_search.
  destruct (is_atomic (cls n)) eqn:Hat.
  - unfold _ao_star_search. rewrite heappush_empty. simpl.
    unfold search_step. simpl heap. rewrite heappop_singleton. simpl.
    rewrite Hroot, Hat. simpl. by rewrite search_loop_done.
  - destruct (_children n) as [|child rest] eqn:Hch.
    + unfold _ao_star_search. rewrite heappush_empty. simpl.
      unfold search_step. simpl heap. rewrite heappop_singleton. simpl.
      rewrite Hroot, Hat.
      rewrite (decompose_childless planner_py σ (root g) n _ Hroot Hat Hch). simpl.
      by rewrite search_loop_done.
    + assert (is_Some (σ !! child)) as [m Hm].
      { apply elem_of_dom. destruct (Hclosed (root g) n Hroot) as [_ Hc].
        rewrite list.Forall_forall in Hc. apply Hc. rewrite Hch. by left. }
      rewrite Hm. simpl. apply (search_planner_py σ g n); [done | by destruct (cls n) |].
      apply (decompose_planner_py σ (root g) child n m rest); [done | | done | done].
      by destruct (cls n).
Qed.

(** X15. In the source, once [validate_dag] has returned, [generate_plan]
    raises: "No valid plan found within constraints" for a root that is atomic
    or has no children, [AttributeError] for any other root.  Exceptions of
    [validate_dag] pass through. *)
Theorem generate_plan_source (fuel : nat) (g : PlanningGraph) (σ : store)
    (n : TaskNode) :
  closed σ → σ !! root g = Some n →
  generate_plan planner_py (S fuel) g σ
  = (_ ← validate_dag σ (root g); Raise (source_search σ n)).
Proof.
  intros Hclosed Hroot. unfold generate_plan.
  destruct (validate_dag σ (root g)) as [[]| |]; simpl; [|done|done].
  by apply search_source.
Qed.

Lemma generate_plan_source_witness :
  generate_plan planner_py 1
    (PlanningGraph_init (clean scenario_A) pool_A default_risk_threshold)
    (objects scenario_A)
  = (_ ← validate_dag (objects scenario_A) (clean scenario_A);
     Raise (source_search (objects scenario_A)
              (mkTaskNode AtomicNode "Clean" [] [("memory", 512%Z)] (Q2Qc 10) 0%Qc
                 "PENDING" []))).
Proof.
  refine (generate_plan_source 0
            (PlanningGraph_init (clean scenario_A) pool_A default_risk_threshold)
            (objects scenario_A) _ _ _).
  - apply (bool_decide_unpack (closed _)). vm_compute. exact I.
  - vm_compute. reflexivity.
Defined.

(** X16. In the source, [generate_plan] returns no plan, whatever the tree,
    the pool and the threshold. *)
Theorem generate_plan_source_never_returns (fuel : nat) (g : PlanningGraph)
    (σ : store) (plan : PlanningResult) :
  generate_plan planner_py fuel g σ ≠ Return plan.
Proof.
  unfold generate_plan. destruct (validate_dag σ (root g)) as [[]| |]; simpl; [|done|done].
  unfold _ao_star_search. rewrite heappush_empty. simpl.
  destruct fuel as [|fuel]; simpl; [done|].
  unfold search_step. simpl heap. rewrite heappop_singleton. simpl.
  destruct (σ !! root g) as [n|] eqn:Hroot; [|done].
  destruct (is_atomic (cls n)) eqn:Hat; [simpl; by rewrite search_loop_done|].
  destruct (decompose planner_py σ (root g) (resource_pool g)) as [ds| |] eqn:Hd;
    simpl; [|done|done].
  assert (ds = []) as ->; [|simpl; by rewrite search_loop_done].
  unfold decompose in Hd. rewrite Hroot in Hd.
  destruct (cls n); [| |done].
  - unfold ANDNode_decompose in Hd. destruct (children_of σ (root g)) as [|c cs].
    + simpl in Hd. by injection Hd as <-.
    + simpl in Hd. unfold passes, call_validate_resources in Hd.
      by destruct (σ !! c).
  - unfold ORNode_decompose in Hd. destruct (children_of σ (root g)) as [|c cs].
    + simpl in Hd. by injection Hd as <-.
    + simpl in Hd. unfold passes, call_validate_resources in Hd.
      by destruct (σ !! c).
Qed.

(** ** [decompose] and the calls of [validate_resources] *)

Section decompose.
Context (validate_resources : option method) (σ : store) (pool : gmap string Z).






End decompose.



(** With a [validate_resources] that scores the child alone, both "Sensor"
    and "API" are accepted against the pool of the example: the OR node
    "AcquireData" gives the two alternatives, in the order of its children. *)
Lemma ORNode_decompose_alternatives :
  decompose alone (objects scenario_A) (acquire_data scenario_A) pool_A
  = Return [[sensor scenario_A]; [api scenario_A]].
Proof. vm_compute. reflexivity. Qed.

(** With memory 100 in the pool "Clean" (memory 512) is rejected and
    "Transform" accepted: the AND node "ProcessData" still gives an option,
    made of "Transform" alone. *)
Lemma ANDNode_decompose_partial :
  decompose alone (objects scenario_A) (process scenario_A) scarce_memory
  = Return [[transform scenario_A]].
Proof. vm_compute. reflexivity. Qed.

(** ** [add_child] and the store *)

Lemma ancestors_loop_ext (fuel : nat) (σ σ' : store) (anc : gset loc)
    (stack : list loc) :
  (∀ l, preconditions_of σ' l = preconditions_of σ l) →
  ancestors_loop fuel σ' anc stack = ancestors_loop fuel σ anc stack.
Proof.
  intros Hpre. revert anc stack. induction fuel as [|fuel IH]; intros anc stack;
    destruct stack as [|c rest]; simpl; try done.
  rewrite Hpre. apply IH.
Qed.

Lemma add_child_store (self node : loc) (σ : store) :
  (add_child self node σ).2 = σ
  ∨ ∃ n, σ !! self = Some n
         ∧ (add_child self node σ).1 = Return ()
         ∧ (add_child self node σ).2
           = <[self := mkTaskNode (cls n) (task_id n) (preconditions n) (resources n)
                         (cost n) (risk n) (_state n) (_children n ++ [node])]> σ.
Proof.
  unfold add_child. destruct (get_ancestors σ self) as [A| |]; [|by left|by left].
  case_decide; [by left|]. destruct (σ !! self) as [n|] eqn:Hn; [|by left].
  right. by exists n.
Qed.

(** X3. [add_child] leaves the ancestors of every node as they were: it
    appends to [_children] and [get_ancestors] reads [preconditions] only.
    So no sequence of [add_child] calls changes what the guard of a later
    call sees. *)
Theorem add_child_keeps_ancestors (self node x : loc) (σ : store) :
  get_ancestors (add_child self node σ).2 x = get_ancestors σ x.
Proof.
  destruct (add_child_store self node σ) as [->|(n & Hn & _ & ->)]; [done|].
  unfold get_ancestors.
  assert (size (<[self := mkTaskNode (cls n) (task_id n) (preconditions n)
                            (resources n) (cost n) (risk n) (_state n)
                            (_children n ++ [node])]> σ) = size σ) as ->.
  { rewrite <- !size_dom, dom_insert_L.
    f_equal. apply elem_of_dom_2 in Hn. set_solver. }
  apply ancestors_loop_ext. intros l. unfold preconditions_of.
  destruct (decide (l = self)) as [->|Hne].
  - by rewrite lookup_insert_eq, Hn.
  - by rewrite lookup_insert_ne.
Qed.

(** X4. The constructor and [add_child] keep the store closed: a new node
    whose preconditions are objects of the store, and a child that is an
    object of the store, leave no reference without its object. *)
Theorem store_stays_closed (σ : store) :
  closed σ →
  (∀ c name pre res cst rsk,
     Forall (λ p, p ∈ dom σ) pre → closed (new_node c name pre res cst rsk σ).2)
  ∧ (∀ self node, node ∈ dom σ → closed (add_child self node σ).2).
Proof.
  intros Hclosed. split.
  - intros c name pre res cst rsk Hpre. unfold new_node, closed. simpl.
    apply map_Forall_insert_2.
    + simpl. split; [|by constructor]. eapply list.Forall_impl; [exact Hpre|].
      intros p Hp. rewrite dom_insert_L. set_solver.
    + intros l n Hl. destruct (Hclosed l n Hl) as [H1 H2].
      split; (eapply list.Forall_impl; [eassumption|]); intros p Hp; simpl in *;
        rewrite dom_insert_L; set_solver.
  - intros self node Hnode.
    destruct (add_child_store self node σ) as [->|(n & Hn & _ & ->)]; [done|].
    destruct (Hclosed self n Hn) as [Hp Hc].
    assert (dom (<[self := mkTaskNode (cls n) (task_id n) (preconditions n)
                             (resources n) (cost n) (risk n) (_state n)
                             (_children n ++ [node])]> σ) = dom σ) as Hdom.
    { rewrite dom_insert_L. apply elem_of_dom_2 in Hn. set_solver. }
    unfold closed. rewrite Hdom. apply map_Forall_insert_2.
    + simpl. split; [done|]. apply Forall_app. split; [done | by constructor].
    + exact Hclosed.
Qed.

(** ** [validate_dag] ends *)

Lemma push_children_app (cs : list loc) (p : gset loc) (s1 s2 : list (loc * gset loc)) :
  push_children cs p (s1 ++ s2) = push_children cs p s1 ++ s2.
Proof.
  unfold push_children. revert s1. induction cs as [|c cs IH]; intros s1; simpl; [done|].
  by rewrite app_comm_cons, IH.
Qed.

Lemma push_children_spec (cs : list loc) (p : gset loc) (s : list (loc * gset loc)) :
  push_children cs p s = reverse ((λ c, (c, p)) <$> cs) ++ s.
Proof.
  unfold push_children. revert s. induction cs as [|c cs IH]; intros s; simpl; [done|].
  rewrite IH, reverse_cons, <- app_assoc. done.
Qed.

Lemma push_children_length (cs : list loc) (p : gset loc) (s : list (loc * gset loc)) :
  length (push_children cs p s) = (length cs + length s)%nat.
Proof.
  rewrite push_children_spec, length_app, length_reverse, length_fmap. done.
Qed.

Lemma unvisited_children_absent (visited : gset loc) (objs : list (loc * TaskNode)) l :
  l ∉ objs.*1 →
  unvisited_children ({[l]} ∪ visited) objs = unvisited_children visited objs.
Proof.
  induction objs as [|[k n] objs IH]; simpl; [done|].
  intros [Hk Hl]%not_elem_of_cons. rewrite (IH Hl).
  destruct (decide (k ∈ visited)) as [Hin|Hout].
  - rewrite decide_True by set_solver. done.
  - rewrite decide_False by set_solver. done.
Qed.

Lemma unvisited_children_visit (visited : gset loc) (objs : list (loc * TaskNode)) l n :
  NoDup objs.*1 → (l, n) ∈ objs → l ∉ visited →
  unvisited_children visited objs
  = (length (_children n) + unvisited_children ({[l]} ∪ visited) objs)%nat.
Proof.
  induction objs as [|[k m] objs IH]; simpl; [by intros _ ?%elem_of_nil|].
  intros [Hk Hnd]%list.NoDup_cons [[= <- <-]|Hin]%elem_of_cons Hl.
  - rewrite decide_False by done. rewrite decide_True by set_solver.
    by rewrite unvisited_children_absent.
  - rewrite (IH Hnd Hin Hl).
    assert (k ≠ l) as Hne.
    { intros ->. apply Hk. apply list_elem_of_fmap. by exists (l, n). }
    destruct (decide (k ∈ visited)) as [Hv|Hv].
    + rewrite decide_True by set_solver. done.
    + rewrite decide_False by set_solver. lia.
Qed.

Lemma dag_fuel_unvisited (σ : store) :
  dag_fuel σ = S (unvisited_children ∅ (map_to_list σ)).
Proof.
  unfold dag_fuel. rewrite map_fold_foldr. f_equal.
  induction (map_to_list σ) as [|[k n] objs IH]; simpl; [done|]. by rewrite IH.
Qed.

Lemma validate_dag_loop_ends (fuel : nat) (σ : store) (visited : gset loc)
    (stack : list (loc * gset loc)) :
  (length stack + unvisited_children visited (map_to_list σ) ≤ fuel)%nat →
  validate_dag_loop fuel σ visited stack ≠ Undefined.
Proof.
  revert visited stack. induction fuel as [|fuel IH]; intros visited [|[n p] rest] Hm;
    simpl in *; try done; [lia|].
  destruct (decide (n ∈ p)); [done|]. destruct (decide (n ∈ visited)) as [Hv|Hv].
  - apply IH. lia.
  - apply IH. rewrite push_children_length. unfold children_of.
    destruct (σ !! n) as [nd|] eqn:Hn; simpl.
    + rewrite (unvisited_children_visit visited (map_to_list σ) n nd) in Hm;
        [lia | apply NoDup_fst_map_to_list | by apply elem_of_map_to_list | done].
    + rewrite unvisited_children_absent; [lia|].
      intros ([k m] & -> & Hk%elem_of_map_to_list)%list_elem_of_fmap. simpl in Hn.
      by rewrite Hn in Hk.
Qed.

(** X5. [validate_dag] ends on every store, cyclic or not: it returns or it
    raises [CircularDependencyError]. *)
Theorem validate_dag_ends (σ : store) (self : loc) :
  validate_dag σ self = Return ()
  ∨ ∃ msg, validate_dag σ self = Raise (CircularDependencyError msg).
Proof.
  pose proof (validate_dag_loop_ends (dag_fuel σ) σ ∅ [(self, ∅)]) as Hends.
  rewrite dag_fuel_unvisited in Hends. simpl in Hends. specialize (Hends ltac:(lia)).
  unfold validate_dag. rewrite dag_fuel_unvisited.
  destruct (validate_dag_loop _ σ ∅ [(self, ∅)]) as [[]|e|] eqn:Hrun;
    [by left | right | done].
  assert (∀ fuel visited stack e,
            validate_dag_loop fuel σ visited stack = Raise e →
            ∃ msg, e = CircularDependencyError msg) as Hcde.
  { clear. intros fuel. induction fuel as [|fuel IH]; intros visited [|[n p] rest] e;
      simpl; try done.
    repeat case_decide; [intros [= <-]; by eexists | apply IH | apply IH]. }
  destruct (Hcde _ _ _ _ Hrun) as [msg ->]. by exists msg.
Qed.

(** ** What [validate_dag] raises on *)

Lemma validate_dag_loop_cycle (self : loc) (fuel : nat) (σ : store)
    (visited : gset loc) (stack : list (loc * gset loc)) (e : exn) :
  (∀ n p, (n, p) ∈ stack →
          rtc (child σ) self n ∧ ∀ q, q ∈ p → tc (child σ) q n) →
  validate_dag_loop fuel σ visited stack = Raise e →
  ∃ node, e = CircularDependencyError ("Cycle detected at " +:+ id_of σ node)
          ∧ rtc (child σ) self node ∧ tc (child σ) node node.
Proof.
  revert visited stack. induction fuel as [|fuel IH]; intros visited [|[n p] rest] Hst;
    simpl; try done.
  destruct (Hst n p ltac:(by left)) as [Hreach Hpath].
  destruct (decide (n ∈ p)) as [Hin|Hout].
  { intros [= <-]. exists n. split_and!; [done | done | by apply Hpath]. }
  destruct (decide (n ∈ visited)) as [Hv|Hv].
  - apply IH. intros m q Hm. apply Hst. by right.
  - apply IH. intros m q. rewrite push_children_spec, elem_of_app, elem_of_reverse.
    intros [(c & [= -> ->] & Hc)%list_elem_of_fmap|Hm]; [|apply Hst; by right].
    split; [by eapply rtc_r|]. intros x [->%elem_of_singleton|Hx]%elem_of_union.
    + by apply tc_once.
    + eapply tc_r; [by apply Hpath | done].
Qed.

(** X6. When [validate_dag] raises, the node its message names is reached
    from [self] along children and lies on a cycle of children. *)
Theorem validate_dag_raises_on_cycle (σ : store) (self : loc) (e : exn) :
  validate_dag σ self = Raise e →
  ∃ node, e = CircularDependencyError ("Cycle detected at " +:+ id_of σ node)
          ∧ rtc (child σ) self node ∧ tc (child σ) node node.
Proof.
  apply validate_dag_loop_cycle. intros n p [= -> ->]%list_elem_of_singleton.
  split; [done | by intros q ?%not_elem_of_empty].
Qed.

(** ** What [validate_dag] returns on *)

Lemma validate_dag_loop_visits (fuel : nat) (σ : store) (visited : gset loc)
    (stack : list (loc * gset loc)) :
  validate_dag_loop fuel σ visited stack = Return () →
  ∃ visited', validate_dag_visits fuel σ visited stack = Return visited'.
Proof.
  revert visited stack. induction fuel as [|fuel IH]; intros visited [|[n p] rest];
    simpl; try done; try (intros _; by eexists).
  repeat case_decide; [done | apply IH | apply IH].
Qed.

Lemma validate_dag_visits_more_fuel (fuel : nat) (σ : store) (visited visited' : gset loc)
    (stack : list (loc * gset loc)) :
  validate_dag_visits fuel σ visited stack = Return visited' →
  validate_dag_visits (S fuel) σ visited stack = Return visited'.
Proof.
  revert visited stack. induction fuel as [|fuel IH]; intros visited [|[n p] rest];
    try done.
  intros Hrun. simpl in Hrun. change (validate_dag_visits (S (S fuel)) σ visited ((n, p) :: rest))
    with (if decide (n ∈ p) then
            Raise (CircularDependencyError ("Cycle detected at " +:+ id_of σ n))
          else if decide (n ∈ visited) then validate_dag_visits (S fuel) σ visited rest
          else validate_dag_visits (S fuel) σ ({[n]} ∪ visited)
                 (push_children (children_of σ n) ({[n]} ∪ p) rest)).
  repeat case_decide; [done | by apply IH | by apply IH].
Qed.

(** The entries on top are dealt with before those below are looked at. *)
Lemma validate_dag_visits_app (fuel : nat) (σ : store) (visited visited'' : gset loc)
    (s1 s2 : list (loc * gset loc)) :
  validate_dag_visits fuel σ visited (s1 ++ s2) = Return visited'' →
  ∃ visited', validate_dag_visits fuel σ visited s1 = Return visited'
              ∧ validate_dag_visits fuel σ visited' s2 = Return visited''.
Proof.
  revert visited s1. induction fuel as [|fuel IH]; intros visited [|[n p] s1] Hrun.
  - by exists visited.
  - done.
  - by exists visited.
  - simpl in Hrun. simpl. destruct (decide (n ∈ p)); [done|].
    destruct (decide (n ∈ visited)).
    + destruct (IH _ _ Hrun) as (v' & H1 & H2). exists v'.
      split; [done | by apply validate_dag_visits_more_fuel].
    + rewrite push_children_app in Hrun.
      destruct (IH _ _ Hrun) as (v' & H1 & H2). exists v'.
      split; [done | by apply validate_dag_visits_more_fuel].
Qed.

Lemma walked_reaches (σ : store) (visited path : gset loc) d x :
  walked σ visited path → d ∈ visited → d ∉ path → rtc (child σ) d x →
  x ∈ visited ∧ x ∉ path.
Proof.
  intros (_ & Hcl & _) Hd Hp Hreach. induction Hreach as [|d c x Hdc _ IH]; [done|].
  destruct (Hcl d c Hd Hp Hdc). by apply IH.
Qed.

(** Entries pushed for the children of one node, all with the path of that
    node: once they are dealt with, each is visited and done. *)
Lemma validate_dag_visits_walked (fuel : nat) (σ : store) (visited visited' : gset loc)
    (path : gset loc) (stack : list (loc * gset loc)) :
  (∀ e, e ∈ stack → e.2 = path) →
  validate_dag_visits fuel σ visited stack = Return visited' →
  walked σ visited path →
  walked σ visited' path ∧ visited ⊆ visited'
  ∧ ∀ e, e ∈ stack → e.1 ∈ visited' ∧ e.1 ∉ path.
Proof.
  revert visited visited' path stack.
  induction fuel as [|fuel IH]; intros visited visited' path [|[n p] rest] Hpath Hrun Hw;
    simpl in Hrun; try done.
  1,2: injection Hrun as <-; split_and!; [done | done | by intros e ?%elem_of_nil].
  assert (p = path) as -> by (apply (Hpath (n, p)); by left).
  assert (∀ e, e ∈ rest → e.2 = path) as Hrest by (intros e He; apply Hpath; by right).
  destruct (decide (n ∈ path)) as [|Hn]; [done|].
  destruct (decide (n ∈ visited)) as [Hv|Hv].
  - destruct (IH _ _ _ _ Hrest Hrun Hw) as (Hw' & Hsub & Hall).
    split_and!; [done | done |].
    intros e [->|He]%elem_of_cons; [|by apply Hall]. simpl. split; [(clear IH; set_solver) | done].
  - rewrite push_children_spec in Hrun.
    apply validate_dag_visits_app in Hrun as (v1 & Hkids & Hrun).
    destruct Hw as (Hsub & Hcl & Hacyc).
    destruct (IH ({[n]} ∪ visited) v1 ({[n]} ∪ path)
                (reverse ((λ c, (c, {[n]} ∪ path)) <$> children_of σ n)))
      as (Hw1 & Hsub1 & Hall1).
    { intros e. rewrite elem_of_reverse. by intros (c & -> & _)%list_elem_of_fmap. }
    { done. }
    { split_and!; [(clear IH; set_solver) | |].
      - intros d c Hd Hp Hdc. assert (d ∈ visited ∧ d ∉ path) as [Hd1 Hd2] by (clear IH; set_solver).
        destruct (Hcl d c Hd1 Hd2 Hdc). (clear IH; set_solver).
      - intros d Hd Hp. apply Hacyc; (clear IH; set_solver). }
    assert (∀ c, child σ n c → c ∈ v1 ∧ c ∉ {[n]} ∪ path) as Hkids'.
    { intros c Hc. apply (Hall1 (c, {[n]} ∪ path)). rewrite elem_of_reverse.
      apply list_elem_of_fmap. by exists c. }
    assert (walked σ v1 path) as Hw2.
    { destruct Hw1 as (Hs1 & Hcl1 & Hac1). split_and!; [(clear IH; set_solver) | |].
      - intros d c Hd Hp Hdc. destruct (decide (d = n)) as [->|Hne].
        + destruct (Hkids' c Hdc). (clear IH; set_solver).
        + destruct (Hcl1 d c Hd ltac:((clear IH; set_solver)) Hdc). (clear IH; set_solver).
      - intros d Hd Hp. destruct (decide (d = n)) as [->|Hne];
          [|apply Hac1; (clear IH; set_solver)].
        intros Hcyc.
        assert (∃ c, child σ n c ∧ rtc (child σ) c n) as (c & Hnc & Hcn).
        { inversion Hcyc as [? ? Hnc|? c ? Hnc Hcn]; subst.
          - exists n. split; [done | done].
          - exists c. split; [done | by apply tc_rtc]. }
        destruct (Hkids' c Hnc) as [Hc1 Hc2].
        destruct (walked_reaches σ v1 ({[n]} ∪ path) c n
                    ltac:(by split_and!) Hc1 Hc2 Hcn) as [_ Hbad].
        (clear IH; set_solver). }
    destruct (IH _ _ _ _ Hrest Hrun Hw2) as (Hw' & Hsub' & Hall).
    split_and!; [done | (clear IH; set_solver) |].
    intros e [->|He]%elem_of_cons; [|by apply Hall]. simpl. split; [(clear IH; set_solver) | done].
Qed.

(** X7. When [validate_dag] returns, no node reached from [self] along
    children lies on a cycle of children. *)
Theorem validate_dag_returns_acyclic (σ : store) (self node : loc) :
  validate_dag σ self = Return () →
  rtc (child σ) self node → ¬ tc (child σ) node node.
Proof.
  intros [v Hrun]%validate_dag_loop_visits Hreach.
  assert (walked σ ∅ ∅) as Hw0.
  { split_and!; [done | by intros d c ?%not_elem_of_empty
                 | by intros d ?%not_elem_of_empty]. }
  assert (∀ e : loc * gset loc, e ∈ [(self, ∅)] → e.2 = ∅) as Hp0
    by (by intros e ->%list_elem_of_singleton).
  destruct (validate_dag_visits_walked _ _ _ _ ∅ _ Hp0 Hrun Hw0) as (Hw & _ & Hall).
  destruct (Hall (self, ∅) ltac:(by left)) as [Hself _]. simpl in Hself.
  destruct (walked_reaches σ v ∅ self node Hw Hself ltac:(set_solver) Hreach) as [Hn _].
  destruct Hw as (_ & _ & Hacyc). apply Hacyc; [done | set_solver].
Qed.

(** ** Instances of the theorems above *)

Lemma validate_dag_raises_on_cycle_witness :
  ∃ node, CircularDependencyError "Cycle detected at a"
          = CircularDependencyError ("Cycle detected at " +:+ id_of cyclic_pair.2 node)
          ∧ rtc (child cyclic_pair.2) cyclic_pair.1 node
          ∧ tc (child cyclic_pair.2) node node.
Proof.
  refine (validate_dag_raises_on_cycle cyclic_pair.2 cyclic_pair.1
            (CircularDependencyError "Cycle detected at a") _).
  vm_compute. reflexivity.
Defined.

Lemma validate_dag_returns_acyclic_witness :
  ¬ tc (child (objects scenario_A)) (mission scenario_A) (mission scenario_A).
Proof.
  refine (validate_dag_returns_acyclic (objects scenario_A) (mission scenario_A)
            (mission scenario_A) _ _).
  - vm_compute. reflexivity.
  - apply rtc_refl.
Defined.

Lemma add_child_without_preconditions_witness :
  (add_child two_fresh_nodes.1.1 two_fresh_nodes.1.1 two_fresh_nodes.2).1 = Return ().
Proof.
  refine (add_child_without_preconditions two_fresh_nodes.2 two_fresh_nodes.1.1
            two_fresh_nodes.1.1
            (mkTaskNode ANDNode "a" [] [] 0%Qc 0%Qc "PENDING" []) _ _ _).
  - apply (bool_decide_unpack (closed _)). vm_compute. exact I.
  - vm_compute. reflexivity.
  - apply (bool_decide_unpack (map_Forall (λ _ m, preconditions m = []) _)).
    vm_compute. exact I.
Defined.

Lemma store_stays_closed_witness :
  (∀ c name pre res cst rsk,
     Forall (λ p, p ∈ dom (objects scenario_A)) pre →
     closed (new_node c name pre res cst rsk (objects scenario_A)).2)
  ∧ (∀ self node, node ∈ dom (objects scenario_A) →
                  closed (add_child self node (objects scenario_A)).2).
Proof.
  refine (store_stays_closed (objects scenario_A) _).
  apply (bool_decide_unpack (closed _)). vm_compute. exact I.
Defined.

(** ** [get_ancestors] *)

(** X1. On every closed store, with or without cycles among the preconditions,
    [get_ancestors] returns, and it returns the nodes reached from [self] by
    one or more steps along [preconditions]: [self] itself only when it lies
    on a cycle. *)
Theorem get_ancestors_computes (σ : store) (self : loc) :
  closed σ →
  ∃ A, get_ancestors σ self = Return A ∧ ∀ a, a ∈ A ↔ ancestor σ self a.
Proof. apply get_ancestors_spec. Qed.

Lemma get_ancestors_computes_witness :
  ∃ A, get_ancestors with_precondition.2 with_precondition.1.1 = Return A
       ∧ ∀ a, a ∈ A ↔ ancestor with_precondition.2 with_precondition.1.1 a.
Proof.
  refine (get_ancestors_computes with_precondition.2 with_precondition.1.1 _).
  apply (bool_decide_unpack (closed _)). vm_compute. exact I.
Defined.

(** ** [_evaluate_option] *)

(** X8. [_evaluate_option] returns exactly when no running sum exceeds the
    capacity [get(res, 0)] gives its resource. *)
Theorem evaluate_option_returns_iff (resource_pool : gmap string Z) (σ : store)
    (nodes : list loc) :
  Forall (λ l, is_Some (σ !! l)) nodes →
  (∃ plan, _evaluate_option resource_pool σ nodes = Return plan)
  ↔ within resource_pool (requests (pending_nodes σ nodes)).
Proof. apply evaluate_option_return_within. Qed.

Lemma evaluate_option_returns_iff_witness :
  (∃ plan, _evaluate_option pool_A (objects scenario_A)
             [clean scenario_A; transform scenario_A] = Return plan)
  ↔ within pool_A
      (requests (pending_nodes (objects scenario_A)
                   [clean scenario_A; transform scenario_A])).
Proof.
  refine (evaluate_option_returns_iff pool_A (objects scenario_A)
            [clean scenario_A; transform scenario_A] _).
  apply (bool_decide_unpack (Forall _ _)). vm_compute. exact I.
Defined.

(** X9. When no running sum exceeds its capacity, [_evaluate_option] returns the
    option as the sequence, for each resource a pending node names the sum
    of its amounts over the pending nodes and nothing for other resources,
    and the greatest of the risks of the pending nodes and 0.  When the costs
    of the pending nodes are whole numbers whose magnitudes add up to [2^53]
    at most, which Python adds without rounding, the cost it returns is their
    sum.  Nodes that are not pending count for nothing. *)
Theorem evaluate_option_scores (resource_pool : gmap string Z) (σ : store)
    (nodes : list loc) :
  Forall (λ l, is_Some (σ !! l)) nodes →
  within resource_pool (requests (pending_nodes σ nodes)) →
  ∃ plan, _evaluate_option resource_pool σ nodes = Return plan
          ∧ sequence plan = nodes
          ∧ (∀ res, resource_usage plan !! res =
                    if decide (res ∈ (requests (pending_nodes σ nodes)).*1)
                    then Some (demand res (requests (pending_nodes σ nodes)))
                    else None)
          ∧ greatest_risk (pending_nodes σ nodes) (risk_factor plan)
          ∧ (whole_costs (pending_nodes σ nodes) →
             plan_cost plan = sum_cost (pending_nodes σ nodes)).
Proof.
  intros Hin Hw.
  destruct (evaluate_option_returns resource_pool σ nodes Hin Hw)
    as (plan & Hplan & Hseq & Huse & Hcost & Hrisk).
  exists plan. by split_and!.
Qed.

Lemma evaluate_option_scores_witness :
  whole_costs (pending_nodes (objects scenario_A) [clean scenario_A; transform scenario_A])
  ∧ ∃ plan, _evaluate_option pool_A (objects scenario_A)
              [clean scenario_A; transform scenario_A] = Return plan
            ∧ sequence plan = [clean scenario_A; transform scenario_A]
            ∧ (∀ res, resource_usage plan !! res =
                      if decide (res ∈ (requests (pending_nodes (objects scenario_A)
                                          [clean scenario_A; transform scenario_A])).*1)
                      then Some (demand res (requests (pending_nodes (objects scenario_A)
                                               [clean scenario_A; transform scenario_A])))
                      else None)
            ∧ greatest_risk (pending_nodes (objects scenario_A)
                               [clean scenario_A; transform scenario_A])
                (risk_factor plan)
            ∧ (whole_costs (pending_nodes (objects scenario_A)
                              [clean scenario_A; transform scenario_A]) →
               plan_cost plan = sum_cost (pending_nodes (objects scenario_A)
                                            [clean scenario_A; transform scenario_A])).
Proof.
  assert (Forall (λ l, is_Some (objects scenario_A !! l))
            [clean scenario_A; transform scenario_A]) as Hin
    by (apply (bool_decide_unpack (Forall _ _)); vm_compute; exact I).
  split.
  - split; [|vm_compute; discriminate].
    apply (bool_decide_unpack (Forall _ _)). vm_compute. exact I.
  - refine (evaluate_option_scores pool_A (objects scenario_A)
              [clean scenario_A; transform scenario_A] Hin _).
    apply (evaluate_option_return_within _ _ _ Hin). eexists. vm_compute. reflexivity.
Defined.

(** X10. The first running sum above its capacity decides what
    [_evaluate_option] raises: [ResourceConflictError] with the resource, the
    sum reached and the capacity in its message when the pool names the
    resource, [KeyError] with the resource when it does not. *)
Theorem evaluate_option_first_error (resource_pool : gmap string Z) (σ : store)
    (nodes : list loc) (pre post : list (string * Z)) (res : string) (amount : Z) :
  Forall (λ l, is_Some (σ !! l)) nodes →
  requests (pending_nodes σ nodes) = pre ++ (res, amount) :: post →
  within resource_pool pre →
  (capacity resource_pool res < demand res pre + amount)%Z →
  _evaluate_option resource_pool σ nodes =
    match resource_pool !! res with
    | Some available => Raise (insufficient res (demand res pre + amount) available)
    | None => Raise (KeyError res)
    end.
Proof. apply evaluate_option_first_excess. Qed.

Lemma evaluate_option_first_error_witness :
  _evaluate_option scarce_memory (objects scenario_A) [sensor scenario_A] =
    match scarce_memory !! "memory" with
    | Some available =>
        Raise (insufficient "memory" (demand "memory" [("cpu", 1%Z)] + 2048) available)
    | None => Raise (KeyError "memory")
    end.
Proof.
  refine (evaluate_option_first_error scarce_memory (objects scenario_A)
            [sensor scenario_A] [("cpu", 1%Z)] [] "memory" 2048%Z _ _ _ _).
  - apply (bool_decide_unpack (Forall _ _)). vm_compute. exact I.
  - vm_compute. reflexivity.
  - apply (within_snoc scarce_memory [] "cpu" 1%Z).
    + intros pre res amount post Heq. by destruct pre.
    + vm_compute. discriminate.
  - vm_compute. reflexivity.
Defined.

(** ** The best plan during the search *)

(** X17. Whatever [validate_resources] is, a run of the search loop that returns
    never drops a best plan it had, and never ends with a dearer one. *)
Theorem best_plan_never_worse (validate_resources : option method) (fuel : nat)
    (g : PlanningGraph) (σ : store) (st st' : search_state) (b : PlanningResult) :
  search_loop validate_resources fuel g σ st = Return st' →
  best_plan st = Some b →
  ∃ b', best_plan st' = Some b' ∧ (plan_cost b' ≤ plan_cost b)%Qc.
Proof. intros Hrun. by apply (search_loop_improved _ _ _ _ _ _ Hrun). Qed.

Lemma best_plan_never_worse_witness :
  ∃ b', best_plan (mkSearchState [] (Some plan_A)) = Some b'
        ∧ (plan_cost b' ≤ plan_cost plan_A)%Qc.
Proof.
  refine (best_plan_never_worse accept_all 10
            (PlanningGraph_init (mission scenario_A) pool_A default_risk_threshold)
            (objects scenario_A)
            (mkSearchState [(Q2Qc 5, process scenario_A)] (Some plan_A))
            (mkSearchState [] (Some plan_A)) plan_A _ _).
  - vm_compute. reflexivity.
  - reflexivity.
Defined.

(** ** [visualize] *)

Lemma reachable_in_store (σ : store) (root x : loc) :
  closed σ → root ∈ dom σ → rtc (child σ) root x → x ∈ dom σ.
Proof.
  intros Hclosed Hroot Hreach. induction Hreach as [|a b c Hab _ IH]; [done|].
  apply IH. unfold child, children_of in Hab.
  destruct (σ !! a) as [n|] eqn:Ha; simpl in Hab; [|by apply elem_of_nil in Hab].
  destruct (Hclosed a n Ha) as [_ Hc]. rewrite list.Forall_forall in Hc. by apply Hc.
Qed.

Lemma children_closed (σ : store) (root n : loc) (nodes : list loc) :
  (∀ x c, x ∈ nodes → child σ x c → c ∈ nodes) → root ∈ nodes →
  rtc (child σ) root n → n ∈ nodes.
Proof.
  intros Hcl Hroot Hreach. induction Hreach as [|a b c Hab _ IH]; [done|].
  apply IH. by apply (Hcl a b).
Qed.

Lemma foldl_push (cs rest : list loc) :
  foldl (λ s c, c :: s) rest cs = reverse cs ++ rest.
Proof.
  revert rest. induction cs as [|c cs IH]; intros rest; simpl; [done|].
  by rewrite IH, reverse_cons, <- app_assoc.
Qed.

Lemma visualize_loop_draws (σ : store) (root : loc) (fuel : nat)
    (done_nodes : list loc) (stack : list loc) :
  closed σ → root ∈ dom σ →
  (length stack + unvisited_children (list_to_set done_nodes) (map_to_list σ) ≤ fuel)%nat →
  NoDup done_nodes →
  (∀ s, s ∈ stack ∨ s ∈ done_nodes → rtc (child σ) root s) →
  (∀ x c, x ∈ done_nodes → child σ x c → c ∈ done_nodes ∨ c ∈ stack) →
  root ∈ done_nodes ∨ root ∈ stack →
  ∃ order, visualize_loop fuel σ (done_nodes ≫= drawing σ) (list_to_set done_nodes) stack
           = Return (order ≫= drawing σ)
           ∧ NoDup order ∧ ∀ n, n ∈ order ↔ rtc (child σ) root n.
Proof.
  intros Hclosed Hroot. revert done_nodes stack.
  induction fuel as [|fuel IH]; intros done_nodes [|node rest] Hm Hnd Hreach Hcl Hr;
    simpl in Hm; try lia.
  1,2: exists done_nodes; split; [done|]; split; [done|]; intros n; split;
       [intros Hn; apply Hreach; by right|];
       destruct Hr as [Hr|Hr]; [|by apply elem_of_nil in Hr];
       apply (children_closed σ root n done_nodes); [|done];
       intros x c Hx Hxc; destruct (Hcl x c Hx Hxc) as [?|Hb];
         [done | by apply elem_of_nil in Hb].
  simpl. destruct (decide (node ∈ list_to_set done_nodes)) as [Hv|Hv].
  - apply elem_of_list_to_set in Hv. apply IH; [lia | done | | |].
    + intros s [Hs|Hs]; apply Hreach; [left; by right | by right].
    + intros x c Hx Hxc. destruct (Hcl x c Hx Hxc) as [?|[->|?]%elem_of_cons];
        [by left | by left | by right].
    + destruct Hr as [?|[->|?]%elem_of_cons]; [by left | by left | by right].
  - rewrite elem_of_list_to_set in Hv.
    assert (rtc (child σ) root node) as Hnode by (apply Hreach; left; by left).
    assert (is_Some (σ !! node)) as [n Hn]
      by (apply elem_of_dom; by apply (reachable_in_store σ root)).
    rewrite Hn. rewrite foldl_push.
    assert ((done_nodes ≫= drawing σ) ++ draw σ n = (done_nodes ++ [node]) ≫= drawing σ)
      as ->.
    { rewrite bind_app. f_equal. simpl. unfold drawing. rewrite Hn. simpl.
      by rewrite app_nil_r. }
    assert ({[node]} ∪ list_to_set done_nodes = list_to_set (C:=gset loc) (done_nodes ++ [node]))
      as -> by (rewrite list_to_set_app_L; simpl; set_solver).
    assert (∀ c, c ∈ _children n ↔ child σ node c) as Hch
      by (intros c; unfold child, children_of; by rewrite Hn).
    apply IH.
    + rewrite length_app, length_reverse.
      assert (list_to_set (C:=gset loc) (done_nodes ++ [node])
              = {[node]} ∪ list_to_set done_nodes) as ->
        by (rewrite list_to_set_app_L; simpl; set_solver).
      rewrite (unvisited_children_visit (list_to_set done_nodes) (map_to_list σ) node n)
        in Hm; [lia | apply NoDup_fst_map_to_list | by apply elem_of_map_to_list|].
      by rewrite elem_of_list_to_set.
    + apply list.NoDup_app. split_and!; [done | | apply list.NoDup_singleton].
      intros x Hx ->%list_elem_of_singleton. done.
    + intros s. rewrite !elem_of_app, elem_of_reverse, list_elem_of_singleton.
      intros [[Hs|Hs]|[Hs| ->]]; [| | |done].
      * eapply rtc_r; [exact Hnode | by apply Hch].
      * apply Hreach. left. by right.
      * apply Hreach. by right.
    + intros x c. rewrite !elem_of_app, elem_of_reverse, list_elem_of_singleton.
      intros [Hx| ->] Hxc.
      * destruct (Hcl x c Hx Hxc) as [?|[->|?]%elem_of_cons];
          [left; by left | left; right; by left | right; by right].
      * right. left. by apply Hch.
    + rewrite !elem_of_app.
      destruct Hr as [?|[->|?]%elem_of_cons];
        [left; by left | left; right; by left | right; by right].
Qed.

(** X18. [visualize] ends on every closed store, cyclic or not, and the graph it
    hands to [render] consists, for each object reached from the root along
    children and for no other, of its node command followed by one edge
    command per child reference, each reached object being drawn once. *)
Theorem visualize_draws_reachable (σ : store) (g : PlanningGraph) :
  closed σ → root g ∈ dom σ →
  ∃ order, visualize σ g = Return (order ≫= drawing σ)
           ∧ NoDup order ∧ ∀ n, n ∈ order ↔ rtc (child σ) (root g) n.
Proof.
  intros Hclosed Hroot.
  apply (visualize_loop_draws σ (root g) (dag_fuel σ) [] [root g]); try done.
  - rewrite dag_fuel_unvisited. simpl. lia.
  - apply NoDup_nil_2.
  - intros s [->%list_elem_of_singleton|?%elem_of_nil]; done.
  - by intros x c ?%elem_of_nil.
  - right. by left.
Qed.

Lemma visualize_draws_reachable_witness :
  ∃ order,
    visualize cyclic_pair.2 (PlanningGraph_init cyclic_pair.1 ∅ default_risk_threshold)
    = Return (order ≫= drawing cyclic_pair.2)
    ∧ NoDup order ∧ ∀ n, n ∈ order ↔ rtc (child cyclic_pair.2) cyclic_pair.1 n.
Proof.
  refine (visualize_draws_reachable cyclic_pair.2
            (PlanningGraph_init cyclic_pair.1 ∅ default_risk_threshold) _ _).
  - apply (bool_decide_unpack (closed _)). vm_compute. exact I.
  - apply (bool_decide_unpack (_ ∈ _)). vm_compute. exact I.
Defined.

(** ** What the heap holds *)

Lemma elem_of_list_insert_inv {A : Type} (l : list A) (i : nat) (x y : A) :
  x ∈ <[i:=y]> l → x = y ∨ x ∈ l.
Proof.
  revert i. induction l as [|z l IH]; intros i; [by right|].
  destruct i as [|i]; simpl.
  - intros [->|Hx]%elem_of_cons; [by left | right; by right].
  - intros [->|Hx]%elem_of_cons; [right; by left|].
    destruct (IH i Hx) as [->|?]; [by left | right; by right].
Qed.

Lemma elem_of_removelast {A : Type} (l : list A) (x : A) :
  x ∈ removelast l → x ∈ l.
Proof.
  induction l as [|z l IH]; simpl; [done|]. destruct l as [|z' l].
  - by intros ?%elem_of_nil.
  - intros [->|Hx]%elem_of_cons; [by left | right; by apply IH].
Qed.

Lemma siftdown_loop_elements (fuel : nat) (σ : store) (h h' : list entry)
    (newitem : entry) (startpos pos : nat) :
  _siftdown_loop fuel σ h newitem startpos pos = Return h' →
  ∀ x, x ∈ h' → x = newitem ∨ x ∈ h.
Proof.
  revert h pos. induction fuel as [|fuel IH]; intros h pos; simpl.
  - case_decide; [done|]. intros [= <-] x. apply elem_of_list_insert_inv.
  - case_decide; [|intros [= <-] x; apply elem_of_list_insert_inv].
    destruct (h !! Nat.div2 (pos - 1)) as [parent|] eqn:Hp; [|done].
    destruct (tuple_lt σ newitem parent) as [[]| |]; simpl; [| |done|done].
    + intros Hrun x Hx. destruct (IH _ _ Hrun x Hx) as [?|Hin]; [by left|].
      apply elem_of_list_insert_inv in Hin as [->|?]; [|by right].
      right. by apply list_elem_of_lookup_2 in Hp.
    + intros [= <-] x. apply elem_of_list_insert_inv.
Qed.

Lemma siftdown_elements (σ : store) (h h' : list entry) (startpos pos : nat) :
  _siftdown σ h startpos pos = Return h' → ∀ x, x ∈ h' → x ∈ h.
Proof.
  unfold _siftdown. destruct (h !! pos) as [newitem|] eqn:Hp; [|done].
  intros Hrun x Hx. destruct (siftdown_loop_elements _ _ _ _ _ _ _ Hrun x Hx) as [->|?];
    [by apply list_elem_of_lookup_2 in Hp | done].
Qed.

Lemma siftup_loop_elements (fuel : nat) (σ : store) (h h' : list entry)
    (pos pos' childpos : nat) :
  _siftup_loop fuel σ h pos childpos = Return (h', pos') → ∀ x, x ∈ h' → x ∈ h.
Proof.
  revert h pos childpos. induction fuel as [|fuel IH]; intros h pos childpos; simpl.
  - case_decide; [done|]. by intros [= <- <-].
  - case_decide; [|by intros [= <- <-]].
    destruct (_ : outcome nat) as [c| |]; simpl; [|done|done].
    destruct (h !! c) as [ch|] eqn:Hc; [|done].
    intros Hrun x Hx. apply (IH _ _ _ Hrun) in Hx.
    apply elem_of_list_insert_inv in Hx as [->|?]; [|done].
    by apply list_elem_of_lookup_2 in Hc.
Qed.

Lemma siftup_elements (σ : store) (h h' : list entry) (pos : nat) :
  _siftup σ h pos = Return h' → ∀ x, x ∈ h' → x ∈ h.
Proof.
  unfold _siftup. destruct (h !! pos) as [newitem|] eqn:Hp; [|done].
  destruct (_siftup_loop _ _ _ _ _) as [[h1 pos1]| |] eqn:Hloop; simpl; [|done|done].
  intros Hdown x Hx. apply (siftdown_elements _ _ _ _ _ Hdown) in Hx.
  apply elem_of_list_insert_inv in Hx as [->|Hx].
  - by apply list_elem_of_lookup_2 in Hp.
  - by apply (siftup_loop_elements _ _ _ _ _ _ _ Hloop).
Qed.

Lemma heappush_elements (σ : store) (h h' : list entry) (item : entry) :
  heappush σ h item = Return h' → ∀ x, x ∈ h' → x ∈ h ∨ x = item.
Proof.
  intros Hpush x Hx. apply (siftdown_elements _ _ _ _ _ Hpush) in Hx.
  apply elem_of_app in Hx as [? | ->%list_elem_of_singleton]; [by left | by right].
Qed.

Lemma heappop_elements (σ : store) (h h' : list entry) (item : entry) :
  heappop σ h = Return (item, h') → item ∈ h ∧ ∀ x, x ∈ h' → x ∈ h.
Proof.
  unfold heappop. destruct (list.last h) as [lastelt|] eqn:Hlast; [|done].
  apply last_Some_elem_of in Hlast.
  destruct (removelast h) as [|returnitem rest] eqn:Hrest.
  - intros [= <- <-]. split; [done | by intros x ?%elem_of_nil].
  - destruct (_siftup σ (lastelt :: rest) 0) as [h1| |] eqn:Hup; simpl; [|done|done].
    intros [= <- <-].
    assert (∀ x, x ∈ returnitem :: rest → x ∈ h) as Hsub
      by (intros x Hx; apply elem_of_removelast; by rewrite Hrest).
    split; [apply Hsub; by left|].
    intros x Hx. apply (siftup_elements _ _ _ _ Hup) in Hx.
    apply elem_of_cons in Hx as [->|Hx]; [done | apply Hsub; by right].
Qed.

(** ** Once the best plan is the cheapest entry *)

(** The four ways one turn of the scoring loop returns. *)
Lemma score_option_cases (g : PlanningGraph) (σ : store) (current_cost : Qc)
    (st st' : search_state) (option : list loc) :
  score_option g σ current_cost st option = Return st' →
  (st' = st ∧ ∃ msg, _evaluate_option (resource_pool g) σ option
                     = Raise (ResourceConflictError msg))
  ∨ (st' = st ∧ ∃ plan, _evaluate_option (resource_pool g) σ option = Return plan
                        ∧ (risk_threshold g < risk_factor plan)%Qc)
  ∨ (st' = st ∧ ∃ plan, acceptable g σ option plan
                        ∧ improves (best_plan st) (current_cost + plan_cost plan)%Qc
                          = false)
  ∨ ∃ plan node,
      acceptable g σ option plan
      ∧ improves (best_plan st) (current_cost + plan_cost plan)%Qc = true
      ∧ heappush σ (heap st) ((current_cost + plan_cost plan)%Qc, node)
        = Return (heap st')
      ∧ best_plan st'
        = Some (mkPlanningResult (sequence plan) (resource_usage plan)
                  (current_cost + plan_cost plan)%Qc (risk_factor plan)).
Proof.
  unfold score_option, acceptable.
  destruct (_evaluate_option (resource_pool g) σ option) as [plan|e|] eqn:Hev;
    [| destruct e; try done; intros [= <-]; left; split; [done | by eexists] | done].
  destruct (decide (risk_threshold g < risk_factor plan)%Qc) as [Hr|Hr].
  { intros [= <-]. right. left. split; [done|]. by exists plan. }
  destruct (improves (best_plan st) (current_cost + plan_cost plan)%Qc) eqn:Himp.
  - destruct (list.last option) as [node|]; [|done].
    destruct (heappush σ (heap st) _) as [heap'| |] eqn:Hpush; simpl; [|done|done].
    intros [= <-]. do 3 right. exists plan, node. by split_and!.
  - intros [= <-]. right. right. left. split; [done|]. by exists plan.
Qed.

Lemma sum_cost_nonneg (ns : list TaskNode) :
  Forall (λ n, (0 ≤ cost n)%Qc) ns → (0 ≤ sum_cost ns)%Qc.
Proof.
  induction 1 as [|n ns Hn _ IH]; simpl; [apply Qcle_refl|].
  by apply Qcplus_nonneg_nonneg.
Qed.

Lemma evaluate_option_cost_nonneg (resource_pool : gmap string Z) (σ : store)
    (nodes : list loc) (plan : PlanningResult) :
  map_Forall (λ _ n, (0 ≤ cost n)%Qc) σ →
  _evaluate_option resource_pool σ nodes = Return plan →
  (0 ≤ plan_cost plan)%Qc.
Proof.
  intros Hpos Hplan.
  assert (Forall (λ l, is_Some (σ !! l)) nodes) as Hin.
  { unfold _evaluate_option in Hplan.
    destruct (for_each _ _ _) as [acc| |] eqn:Hrun; [|done|done].
    by apply (evaluate_nodes_in_store _ _ _ _ _ Hrun). }
  rewrite (evaluate_option_unfold resource_pool σ nodes Hin) in Hplan.
  destruct (for_each _ _ _) as [req| |]; simpl in Hplan; [|done|done].
  injection Hplan as <-. simpl. apply sum_cost_nonneg. apply list.Forall_forall.
  intros n [_ (l & _ & Hl)%list_elem_of_omap]%list_elem_of_filter.
  by apply (Hpos l n).
Qed.

Section depth.
Context (validate_resources : option method) (g : PlanningGraph) (σ : store).
Hypothesis Hcosts : map_Forall (λ _ n, (0 ≤ cost n)%Qc) σ.

(** A turn of the scoring loop for an entry that costs no less than the best
    plan changes nothing. *)
Lemma score_option_deeper (current_cost : Qc) (st st' : search_state)
    (option : list loc) (b : PlanningResult) :
  best_plan st = Some b → (plan_cost b ≤ current_cost)%Qc →
  score_option g σ current_cost st option = Return st' → st' = st.
Proof.
  intros Hb Hle [[-> _]|[[-> _]|[[-> _]|(plan & node & [Hev _] & Himp & _)]]]%score_option_cases;
    try done.
  rewrite Hb in Himp. simpl in Himp. apply bool_decide_eq_true_1 in Himp.
  pose proof (evaluate_option_cost_nonneg _ _ _ _ Hcosts Hev) as Hpos.
  exfalso. apply (Qclt_not_le _ _ Himp). eapply Qcle_trans; [exact Hle|].
  rewrite <- (Qcplus_0_r current_cost) at 1. by apply Qcplus_le_mono_l.
Qed.

Lemma for_each_deeper (current_cost : Qc) (st st' : search_state)
    (decompositions : list (list loc)) (b : PlanningResult) :
  best_plan st = Some b → (plan_cost b ≤ current_cost)%Qc →
  for_each (score_option g σ current_cost) decompositions st = Return st' → st' = st.
Proof.
  intros Hb Hle. revert st Hb. induction decompositions as [|o ds IH]; intros st Hb;
    simpl; [by intros [= <-]|].
  destruct (score_option g σ current_cost st o) as [s1| |] eqn:Ho; simpl; [|done|done].
  apply (score_option_deeper current_cost st s1 o b Hb Hle) in Ho as ->. by apply IH.
Qed.

(** One turn of the while loop, once the best plan is no dearer than any
    entry of the heap: the plan stays, and so does that. *)
Lemma search_step_settled (st st' : search_state) (b : PlanningResult) :
  best_plan st = Some b →
  (∀ e, e ∈ heap st → (plan_cost b ≤ e.1)%Qc) →
  search_step validate_resources g σ st = Return st' →
  best_plan st' = Some b ∧ ∀ e, e ∈ heap st' → (plan_cost b ≤ e.1)%Qc.
Proof.
  intros Hb Hheap Hstep.
  apply search_step_returns in Hstep
    as (c & node & heap' & n & Hpop & Hn & Hcases).
  apply heappop_elements in Hpop as [Hin Hsub].
  assert ((plan_cost b ≤ c)%Qc) as Hle by (by apply (Hheap (c, node))).
  destruct Hcases as [[_ ->]|[_ (ds & Hdec & Hrun)]].
  - split; [done|]. intros e He. apply Hheap. by apply Hsub.
  - apply (for_each_deeper c _ _ _ b) in Hrun as ->; [|done|done].
    split; [done|]. intros e He. apply Hheap. by apply Hsub.
Qed.

Lemma search_loop_settled (fuel : nat) (st st' : search_state) (b : PlanningResult) :
  best_plan st = Some b →
  (∀ e, e ∈ heap st → (plan_cost b ≤ e.1)%Qc) →
  search_loop validate_resources fuel g σ st = Return st' →
  best_plan st' = Some b.
Proof.
  revert st. induction fuel as [|fuel IH]; intros st Hb Hheap; simpl.
  - destruct (heap st); [by intros [= <-] | done].
  - destruct (heap st) eqn:Hh; [by intros [= <-]|].
    destruct (search_step _ _ _ _) as [s1| |] eqn:Hstep; simpl; [|done|done].
    rewrite <- Hh in Hheap.
    destruct (search_step_settled st s1 b Hb Hheap Hstep) as [Hb1 Hheap1].
    by apply IH.
Qed.

(** X19. When no node has a negative cost, a best plan that costs no more
    than any entry of the heap is final: whatever [validate_resources] is, a
    run of the search loop that returns from such a state ends with that
    very plan.  Every entry is pushed with the cost of the plan adopted with
    it, so the options of the nodes the search expands after the first are
    scored and never adopted. *)
Theorem best_plan_settles (fuel : nat) (st st' : search_state) (b : PlanningResult) :
  best_plan st = Some b →
  (∀ e, e ∈ heap st → (plan_cost b ≤ e.1)%Qc) →
  search_loop validate_resources fuel g σ st = Return st' →
  best_plan st' = Some b.
Proof. apply search_loop_settled. Qed.
End depth.

Lemma best_plan_settles_witness :
  best_plan (mkSearchState [] (Some plan_A)) = Some plan_A.
Proof.
  refine (best_plan_settles accept_all
            (PlanningGraph_init (mission scenario_A) pool_A default_risk_threshold)
            (objects scenario_A) _ 10
            (mkSearchState [(plan_cost plan_A, process scenario_A)] (Some plan_A))
            (mkSearchState [] (Some plan_A)) plan_A _ _ _).
  - apply (bool_decide_unpack (map_Forall _ _)). vm_compute. exact I.
  - reflexivity.
  - intros e ->%list_elem_of_singleton. apply Qcle_refl.
  - vm_compute. reflexivity.
Defined.

(** ** What the scoring loop adopts *)



(** ** The heap never compares two nodes *)

Lemma NoDup_swap {A : Type} (l : list A) (i j : nat) (a b : A) :
  NoDup l → l !! i = Some a → l !! j = Some b →
  NoDup (<[j := a]> (<[i := b]> l)).
Proof.
  intros Hnd Hi Hj.
  pose proof (lookup_lt_Some _ _ _ Hi) as Hli. pose proof (lookup_lt_Some _ _ _ Hj) as Hlj.
  assert (∀ k, <[j := a]> (<[i := b]> l) !! k
               = if decide (k = j) then Some a
                 else if decide (k = i) then Some b else l !! k) as Hlk.
  { intros k. rewrite !list_lookup_insert, length_insert.
    destruct (decide (k = j)) as [->|Hkj].
    - by rewrite decide_True.
    - rewrite decide_False by (intros [? _]; by subst).
      destruct (decide (k = i)) as [->|Hki].
      + by rewrite decide_True.
      + rewrite decide_False by (intros [? _]; by subst). done. }
  rewrite NoDup_alt in Hnd. apply NoDup_alt. intros k1 k2 x. rewrite !Hlk.
  destruct (decide (k1 = j)) as [->|H1j]; destruct (decide (k2 = j)) as [->|H2j];
    [done | | |].
  - destruct (decide (k2 = i)) as [->|H2i]; intros Hx1 Hx2.
    + apply (Hnd j i b); congruence.
    + exfalso. apply H2i. apply (Hnd k2 i a); congruence.
  - destruct (decide (k1 = i)) as [->|H1i]; intros Hx1 Hx2.
    + apply (Hnd i j b); congruence.
    + exfalso. apply H1i. apply (Hnd k1 i a); congruence.
  - destruct (decide (k1 = i)) as [->|H1i]; destruct (decide (k2 = i)) as [->|H2i];
      [done | | |]; intros Hx1 Hx2.
    + exfalso. apply H2j. apply (Hnd k2 j b); congruence.
    + exfalso. apply H1j. apply (Hnd k1 j b); congruence.
    + by apply (Hnd k1 k2 x).
Qed.

Lemma tuple_lt_distinct (σ : store) (a b : entry) :
  a.1 ≠ b.1 → tuple_lt σ a b = Return (bool_decide (a.1 < b.1)%Qc).
Proof. intros Hne. unfold tuple_lt. by rewrite decide_False. Qed.

Lemma costs_differ (l : list entry) (i j : nat) (a b : entry) :
  NoDup l.*1 → l !! i = Some a → l !! j = Some b → i ≠ j → a.1 ≠ b.1.
Proof.
  intros Hnd Hi Hj Hne Heq. apply Hne.
  apply (proj1 (NoDup_alt _) Hnd i j a.1); rewrite list_lookup_fmap.
  - by rewrite Hi.
  - rewrite Hj. simpl. by rewrite Heq.
Qed.

Lemma siftdown_loop_distinct (fuel : nat) (σ : store) (h : list entry)
    (newitem : entry) (startpos pos : nat) :
  pos < length h → NoDup (<[pos := newitem]> h).*1 →
  distinct_costs id (_siftdown_loop fuel σ h newitem startpos pos).
Proof.
  revert h pos. induction fuel as [|fuel IH]; intros h pos Hpos Hnd; simpl.
  - by case_decide.
  - case_decide as Hsp; [|done].
    assert (Nat.div2 (pos - 1) < pos) as Hpar
      by (pose proof (Nat.le_div2_diag_l (pos - 1)); lia).
    destruct (h !! Nat.div2 (pos - 1)) as [parent|] eqn:Hp; [|done].
    rewrite tuple_lt_distinct.
    2:{ apply (costs_differ (<[pos := newitem]> h) pos (Nat.div2 (pos - 1)));
          [done | by apply list_lookup_insert_eq
          | rewrite list_lookup_insert_ne by lia; done | lia]. }
    simpl. destruct (bool_decide _); [|done].
    apply IH; [rewrite length_insert; lia|].
    rewrite <- (list_insert_insert_eq h pos parent newitem).
    rewrite !list_fmap_insert. rewrite list_fmap_insert in Hnd.
    apply (NoDup_swap _ pos (Nat.div2 (pos - 1)) newitem.1 parent.1); [done | |].
    + apply list_lookup_insert_eq. by rewrite length_fmap.
    + rewrite list_lookup_insert_ne by lia. rewrite list_lookup_fmap. by rewrite Hp.
Qed.

Lemma siftdown_distinct (σ : store) (h : list entry) (startpos pos : nat) :
  NoDup h.*1 → distinct_costs id (_siftdown σ h startpos pos).
Proof.
  intros Hnd. unfold _siftdown. destruct (h !! pos) as [newitem|] eqn:Hp; [|done].
  apply siftdown_loop_distinct; [by apply lookup_lt_Some in Hp|].
  by rewrite (list_insert_id h pos newitem Hp).
Qed.

Lemma siftup_loop_distinct (fuel : nat) (σ : store) (h : list entry)
    (newitem : entry) (pos : nat) :
  pos < length h → NoDup (<[pos := newitem]> h).*1 →
  match _siftup_loop fuel σ h pos (2 * pos + 1) with
  | Return (h', pos') => pos' < length h' ∧ NoDup (<[pos' := newitem]> h').*1
  | Raise _ => False
  | Undefined => True
  end.
Proof.
  revert h pos. induction fuel as [|fuel IH]; intros h pos Hpos Hnd; simpl.
  - by case_decide.
  - case_decide as Hc; [|done].
    assert (∀ i x, i ≠ pos → h !! i = Some x → <[pos := newitem]> h !! i = Some x)
      as Hkeep by (intros i x Hi Hx; by rewrite list_lookup_insert_ne).
    set (childpos := (pos + (pos + 0) + 1)%nat) in *.
    assert (∃ c, (if decide (S childpos < length h) then
                    match h !! childpos, h !! S childpos with
                    | Some l, Some r => lt ← tuple_lt σ l r;
                                        Return (if lt : bool then childpos else S childpos)
                    | _, _ => Undefined
                    end
                  else Return childpos) = Return c
                 ∧ (c = childpos ∨ c = S childpos) ∧ c < length h) as (c & -> & Hc1 & Hc2).
    { case_decide as Hr; [|exists childpos; by split_and!; [|left|]].
      destruct (lookup_lt_is_Some_2 h childpos Hc) as [l Hl].
      destruct (lookup_lt_is_Some_2 h (S childpos) Hr) as [r Hrr].
      rewrite Hl, Hrr. rewrite tuple_lt_distinct.
      - simpl. destruct (bool_decide _); eexists; split_and!; eauto.
      - apply (costs_differ (<[pos := newitem]> h) childpos (S childpos));
          [done | apply Hkeep; [unfold childpos; lia | done]
          | apply Hkeep; [unfold childpos; lia | done] | lia]. }
    simpl. destruct (lookup_lt_is_Some_2 h c Hc2) as [ch Hch]. rewrite Hch.
    assert (c ≠ pos) as Hcp by (unfold childpos in Hc1; lia).
    replace (c + (c + 0) + 1)%nat with (2 * c + 1)%nat by lia.
    apply IH; [by rewrite length_insert|].
    rewrite <- (list_insert_insert_eq h pos ch newitem).
    rewrite !list_fmap_insert. rewrite list_fmap_insert in Hnd.
    apply (NoDup_swap _ pos c newitem.1 ch.1); [done | |].
    + apply list_lookup_insert_eq. by rewrite length_fmap.
    + rewrite list_lookup_insert_ne by lia. rewrite list_lookup_fmap. by rewrite Hch.
Qed.

Lemma siftup_distinct (σ : store) (h : list entry) (pos : nat) :
  NoDup h.*1 → distinct_costs id (_siftup σ h pos).
Proof.
  intros Hnd. unfold _siftup. destruct (h !! pos) as [newitem|] eqn:Hp; [|done].
  pose proof (siftup_loop_distinct (length h) σ h newitem pos) as Hloop.
  replace (2 * pos + 1)%nat with (pos + (pos + 0) + 1)%nat in Hloop by lia.
  destruct (_siftup_loop _ _ _ _ _) as [[h1 pos1]| |]; simpl.
  - destruct Hloop as [_ Hnd1];
      [by apply lookup_lt_Some in Hp | by rewrite (list_insert_id h pos newitem Hp)|].
    by apply siftdown_distinct.
  - apply Hloop; [by apply lookup_lt_Some in Hp
                 | by rewrite (list_insert_id h pos newitem Hp)].
  - done.
Qed.

Lemma heappush_distinct (σ : store) (h : list entry) (item : entry) :
  NoDup h.*1 → item.1 ∉ h.*1 → distinct_costs id (heappush σ h item).
Proof.
  intros Hnd Hnew. apply siftdown_distinct. rewrite fmap_app. apply list.NoDup_app.
  split_and!; [done | | apply list.NoDup_singleton].
  intros x Hx ->%list_elem_of_singleton. done.
Qed.

Lemma last_removelast {A : Type} (l : list A) (x : A) :
  list.last l = Some x → l = removelast l ++ [x].
Proof.
  intros [l' ->]%last_Some. by rewrite removelast_last.
Qed.

Lemma heappop_distinct (σ : store) (h : list entry) :
  NoDup h.*1 → h ≠ [] → distinct_costs snd (heappop σ h).
Proof.
  intros Hnd Hne. unfold heappop.
  destruct (list.last h) as [lastelt|] eqn:Hlast.
  2:{ destruct h as [|x h] using rev_ind; [done | by rewrite last_snoc in Hlast]. }
  rewrite (last_removelast h lastelt Hlast) in Hnd.
  destruct (removelast h) as [|returnitem rest]; [simpl; apply NoDup_nil_2|].
  assert (NoDup (lastelt :: rest).*1) as Hnd1.
  { rewrite fmap_app, fmap_cons in Hnd. simpl in Hnd.
    apply list.NoDup_cons in Hnd as [_ Hnd]. apply list.NoDup_app in Hnd as (Hr & Hd & _).
    rewrite fmap_cons. apply list.NoDup_cons. split; [|done].
    intros Hin. apply (Hd _ Hin). by left. }
  pose proof (siftup_distinct σ (lastelt :: rest) 0 Hnd1) as Hup.
  by destruct (_siftup σ (lastelt :: rest) 0).
Qed.

Lemma for_each_keeps {A S : Type} (P : S → Prop) (body : S → A → outcome S)
    (l : list A) (st : S) :
  P st →
  (∀ s x, P s → keeps P (body s x)) →
  keeps P (for_each body l st).
Proof.
  intros Hst Hbody. revert st Hst. induction l as [|x l IH]; intros st Hst; simpl; [done|].
  pose proof (Hbody st x Hst) as Hx. destruct (body st x) as [s1| |]; simpl; [|done|done].
  by apply IH.
Qed.

Lemma evaluate_option_no_type_error (resource_pool : gmap string Z) (σ : store)
    (nodes : list loc) (e : exn) :
  _evaluate_option resource_pool σ nodes = Raise e → no_type_error e.
Proof.
  unfold _evaluate_option. intros [Hrun|(acc & _ & Hr)]%bind_raises; [|done].
  revert Hrun. apply for_each_raises. intros acc l e'. unfold evaluate_node.
  destruct (σ !! l) as [n|]; [|done]. case_decide; [|done].
  intros [Hreq|(req & _ & Hr)]%bind_raises; [|done].
  revert Hreq. apply for_each_raises. intros req item e''. unfold require.
  case_decide; [|done]. destruct (resource_pool !! item.1); by intros [= <-].
Qed.

Lemma score_option_tidy (g : PlanningGraph) (σ : store) (current_cost : Qc)
    (st : search_state) (option : list loc) :
  tidy_scoring st → keeps tidy_scoring (score_option g σ current_cost st option).
Proof.
  intros [Hnd Hbest]. unfold score_option.
  destruct (_evaluate_option (resource_pool g) σ option) as [plan|e|] eqn:Hev; [| |done].
  2:{ apply evaluate_option_no_type_error in Hev. by destruct e. }
  case_decide; [done|].
  destruct (improves (best_plan st) (current_cost + plan_cost plan)%Qc) eqn:Himp; [|done].
  destruct (list.last option) as [node|]; [|done].
  set (total := (current_cost + plan_cost plan)%Qc) in *.
  assert (∀ e, e ∈ heap st → (total < e.1)%Qc) as Hbelow.
  { intros e He. destruct (best_plan st) as [b|]; [|by rewrite Hbest in He; apply elem_of_nil in He].
    simpl in Himp. apply bool_decide_eq_true_1 in Himp.
    eapply Qclt_le_trans; [exact Himp | by apply Hbest]. }
  pose proof (heappush_distinct σ (heap st) (total, node) Hnd) as Hpush.
  pose proof (λ h', heappush_elements σ (heap st) h' (total, node)) as Helem.
  destruct (heappush σ (heap st) (total, node)) as [heap'| |]; simpl; [| |done].
  - split; [apply Hpush|]; simpl.
    + intros ((c & nd) & Hc & He)%list_elem_of_fmap. simpl in Hc. subst c.
      apply (Qclt_not_le _ _ (Hbelow _ He)). apply Qcle_refl.
    + intros e [He| ->]%(Helem heap' eq_refl); simpl;
        [apply Qclt_le_weak; by apply Hbelow | apply Qcle_refl].
  - exfalso. apply Hpush. simpl.
    intros ((c & nd) & Hc & He)%list_elem_of_fmap. simpl in Hc. subst c.
    apply (Qclt_not_le _ _ (Hbelow _ He)). apply Qcle_refl.
Qed.

Section type_errors.
Context (validate_resources : option method) (g : PlanningGraph) (σ : store).
Hypothesis Htyped : well_typed validate_resources.

Lemma decompose_no_type_error (self : loc) (pool : gmap string Z) (e : exn) :
  decompose validate_resources σ self pool = Raise e → no_type_error e.
Proof.
  assert (∀ child e', passes validate_resources σ pool child = Raise e' →
                      no_type_error e') as Hpasses.
  { intros child e'. unfold passes, call_validate_resources.
    destruct (σ !! child) as [n|]; [|done].
    destruct validate_resources as [m|]; [|by intros [= <-]].
    pose proof (Htyped σ child pool) as Hm.
    destruct (m σ child pool) as [[]|e''|]; [done| |done].
    destruct e'' as [m0|m0|m0|m0|m0|m0|m0]; try (by intros [= <-]).
    by destruct (Hm m0). }
  unfold decompose. destruct (σ !! self) as [n|]; [|done].
  destruct (cls n); [| |by intros [= <-]].
  - unfold ANDNode_decompose. intros [Hf|(o & _ & Hr)]%bind_raises; [|done].
    revert Hf. apply for_each_raises. intros s x e' [Hp|(b & _ & Hb)]%bind_raises;
      [by apply Hpasses in Hp | done].
  - unfold ORNode_decompose. apply for_each_raises.
    intros s x e' [Hp|(b & _ & Hb)]%bind_raises; [by apply Hpasses in Hp | done].
Qed.

Lemma search_step_tidy (st : search_state) :
  tidy st → heap st ≠ [] → keeps tidy (search_step validate_resources g σ st).
Proof.
  intros [Hnd Hbest] Hne. unfold search_step.
  pose proof (heappop_distinct σ (heap st) Hnd Hne) as Hpop.
  destruct (heappop σ (heap st)) as [[[c node] heap']| |] eqn:Hp; simpl; [|done|done].
  destruct (heappop_elements σ (heap st) heap' (c, node) Hp) as [_ Hsub]. simpl in Hpop.
  assert (tidy_scoring (mkSearchState heap' (best_plan st))) as Hin.
  { split; [done|]. simpl. destruct (best_plan st) as [b|].
    - intros e He. apply Hbest. by apply Hsub.
    - destruct (heap st) as [|x [|y l]]; [done | | simpl in Hbest; lia].
      rewrite heappop_singleton in Hp. by injection Hp as _ <-. }
  assert (∀ s, tidy_scoring s → tidy s) as Hweak.
  { intros s [H1 H2]. split; [done|]. destruct (best_plan s); [done|].
    rewrite H2. simpl. lia. }
  destruct (σ !! node) as [n|]; [|done].
  destruct (is_atomic (cls n)); [by apply Hweak|].
  destruct (decompose _ _ _ _) as [ds|e|] eqn:Hd; simpl;
    [| by apply decompose_no_type_error in Hd | done].
  pose proof (for_each_keeps tidy_scoring (score_option g σ c) ds _ Hin
                (λ s x Hs, score_option_tidy g σ c s x Hs)) as Hrun.
  destruct (for_each _ ds _); simpl in *; [by apply Hweak | done | done].
Qed.

Lemma search_loop_no_type_error (fuel : nat) (st : search_state) :
  tidy st → keeps (λ _, True) (search_loop validate_resources fuel g σ st).
Proof.
  revert st. induction fuel as [|fuel IH]; intros st Hst; simpl.
  - by destruct (heap st).
  - destruct (heap st) eqn:Hh; [done|].
    pose proof (search_step_tidy st Hst ltac:(by rewrite Hh)) as Hstep.
    destruct (search_step _ _ _ _) as [s1| |]; simpl in *; [by apply IH | done | done].
Qed.

(** X20. As long as [validate_resources] itself raises no [TypeError],
    [generate_plan] raises none: the entries that meet in the heap have
    different costs, so [heapq] never goes on to compare two task nodes. *)
Theorem generate_plan_no_type_error (fuel : nat) (msg : string) :
  generate_plan validate_resources fuel g σ ≠ Raise (TypeError msg).
Proof.
  unfold generate_plan. intros [Hv|([] & _ & Hs)]%bind_raises.
  - apply validate_dag_loop_cycle with (self := root g) in Hv as (nd & He & _); [done|].
    intros n p [= -> ->]%list_elem_of_singleton.
    split; [done | by intros q ?%not_elem_of_empty].
  - unfold _ao_star_search in Hs. rewrite heappush_empty in Hs. simpl in Hs.
    pose proof (search_loop_no_type_error fuel (mkSearchState [(0%Qc, root g)] None))
      as Hloop.
    destruct (search_loop _ _ _ _ _) as [st| |]; simpl in *; [| |done].
    + by destruct (best_plan st).
    + injection Hs as ->. apply Hloop. split; simpl; [|lia].
      apply list.NoDup_singleton.
Qed.
End type_errors.

Lemma generate_plan_no_type_error_witness :
  generate_plan accept_all 10
    (PlanningGraph_init (mission scenario_A) pool_A default_risk_threshold)
    (objects scenario_A)
  ≠ Raise (TypeError "'<' not supported between instances of 'ANDNode' and 'ORNode'").
Proof.
  refine (generate_plan_no_type_error accept_all
            (PlanningGraph_init (mission scenario_A) pool_A default_risk_threshold)
            (objects scenario_A) _ 10 _).
  simpl. intros. discriminate.
Defined.
